(** * Equity of poker hands: a shallow embedding of [equity.go]

    The development follows the source file top-down: the card table [CTOI]
    built by [init], decks and set subtraction, the range expander
    [HandDist.Strs], the walk through the hand-rank table [hr], the
    comparator [evalHands], the hole-card estimator [PHole], the lottery and
    the two equity drivers.

    Conventions.
    - [uint32] values are integers in [Z], wrapped with [u32] wherever the
      source computes on them; Go's [int] is wrapped with [int64].
    - [float64] values are the kernel's binary64 floats ([PrimFloat]).
    - A slice is a [list]; an index that Go would reject yields [Panic].
    - A Go [string] is a sequence of bytes: [String.string]. *)

From Stdlib Require Import ZArith Lia PrimFloat Ascii.
From Stdlib Require Uint63.
From stdpp Require Import base option list gmap strings fin_maps.

Local Open Scope Z_scope.

(** ** Machine integers and floats *)

Definition u32 (z : Z) : Z := z mod 2 ^ 32.

(** Go's [int] on the 64-bit targets: two's complement wrap-around. *)
Definition int64 (z : Z) : Z := (z + 2 ^ 63) mod 2 ^ 64 - 2 ^ 63.

(** [float64(n)] for an [int] that holds a count. *)
Definition float64_of_int (n : Z) : float :=
  if decide (0 <= n) then of_uint63 (Uint63.of_Z n)
  else (- of_uint63 (Uint63.of_Z (- n)))%float.

(** ** Run-time panics *)

Inductive panic : Type :=
| IndexOutOfRange (index len : Z)
| DivideByZero.

Inductive result (A : Type) : Type :=
| Ok (a : A)
| Panic (p : panic).
Arguments Ok {A} a.
Arguments Panic {A} p.

#[global] Instance result_ret : MRet result := fun _ a => Ok a.
#[global] Instance result_bind : MBind result := fun _ _ f r =>
  match r with
  | Ok a => f a
  | Panic p => Panic p
  end.

(** A [range] loop whose body may panic: the results up to the first panic. *)
Fixpoint for_each {A B} (f : A → result B) (s : list A) : result (list B) :=
  match s with
  | [] => Ok []
  | a :: s' => b ← f a; bs ← for_each f s'; Ok (b :: bs)
  end.

(** ** Slices *)

(** [s[i]] *)
Definition index {A} (s : list A) (i : Z) : result A :=
  match (if decide (0 <= i) then s !! Z.to_nat i else None) with
  | Some a => Ok a
  | None => Panic (IndexOutOfRange i (Z.of_nat (length s)))
  end.

(** [copy(dst, src)]: overwrites the first [min(len(dst), len(src))] elements
    of [dst]; the length of [dst] does not change. *)
Definition copy {A} (dst src : list A) : list A :=
  take (length dst) src ++ drop (length src) dst.

(** ** Constants and the card table *)

Definition ranks : string := "23456789TJQKA".
Definition suits : string := "cdhs".

Definition bytes (s : string) : list ascii := String.list_ascii_of_string s.

(** [string([]byte{a, b})] *)
Definition str2 (a b : ascii) : string := String a (String b EmptyString).

(** The two nested loops of [init] that fill [CTOI], with the counter [k]. *)
Definition init_CTOI : gmap string Z :=
  fst (foldl (fun st r =>
         foldl (fun '(m, k) s => (<[str2 r s := k]> m, u32 (k + 1)))
               st (bytes suits))
       (∅, 1) (bytes ranks)).

Definition CTOI : gmap string Z := Eval vm_compute in init_CTOI.

(** [CTOI[c]]: a missing key reads as the zero value. *)
Definition CTOI_at (c : string) : Z := default 0 (CTOI !! c).

Definition cardsToInts (cards : list string) : list Z := map CTOI_at cards.

(** The 52 keys [init] inserts, in insertion order. *)
Definition card_names : list string :=
  r ← bytes ranks; s ← bytes suits; [str2 r s].

(** ** Decks *)

(** [minus a b]: the elements of [a] not matched by any element of [b], in
    the order of [a]. *)
Definition minus (a b : list Z) : list Z :=
  foldl (fun c v => if existsb (Z.eqb v) b then c else c ++ [v]) [] a.

Definition NewDeck (missing : list Z) : list Z :=
  let deck := map (fun i => u32 (Z.of_nat i + 1)) (seq 0 52) in
  if decide (0 < length missing)%nat then minus deck missing else deck.

(** ** Hand distributions *)

Record HandDist : Type := { Dist : string }.

(** [Strs]: [xs] and [ys] hold the two rank bytes with each of the four
    suits; the three cases of the [switch] pick pairs of them. *)
Definition Strs (this : HandDist) : result (list (list string)) :=
  let d := bytes (Dist this) in
  d0 ← index d 0;
  d1 ← index d 1;
  let xs := map (str2 d0) (bytes suits) in
  let ys := map (str2 d1) (bytes suits) in
  if decide (length d = 2%nat) then
    Ok (i ← seq 0 3; j ← seq (i + 1) (4 - (i + 1)); [[xs !!! i; xs !!! j]])
  else
    d2 ← index d 2;
    if decide (d2 = "o"%char) then
      Ok (i ← seq 0 4; j ← seq 0 4;
          if decide (i ≠ j) then [[xs !!! i; ys !!! j]] else [])
    else
      Ok (i ← seq 0 4; [[xs !!! i; ys !!! i]]).

Definition Ints (this : HandDist) : result (list (list Z)) :=
  shands ← Strs this; Ok (map cardsToInts shands).

(** ** The hand-rank table *)

Definition HR_LEN : Z := 32487834.

(** [hr[i]] for a [uint32] index [i]; [hr] is the table as loaded from
    [HandRanks.dat]. *)
Definition hr_at (hr : Z → Z) (i : Z) : result Z :=
  if decide (i < HR_LEN) then Ok (u32 (hr i))
  else Panic (IndexOutOfRange i HR_LEN).

Definition evalBoard (hr : Z → Z) (cards : list Z) : result Z :=
  c ← index cards 0; v ← hr_at hr (u32 (53 + c));
  c ← index cards 1; v ← hr_at hr (u32 (v + c));
  c ← index cards 2; v ← hr_at hr (u32 (v + c));
  c ← index cards 3; v ← hr_at hr (u32 (v + c));
  c ← index cards 4; hr_at hr (u32 (v + c)).

Definition evalHand (hr : Z → Z) (b : Z) (cards : list Z) : result Z :=
  c ← index cards 0; b ← hr_at hr (u32 (b + c));
  c ← index cards 1; hr_at hr (u32 (b + c)).

Definition EvalHand (hr : Z → Z) (cards : list string) : result Z :=
  let hand := cardsToInts cards in
  c ← index hand 0; v ← hr_at hr (u32 (53 + c));
  c ← index hand 1; v ← hr_at hr (u32 (v + c));
  c ← index hand 2; v ← hr_at hr (u32 (v + c));
  c ← index hand 3; v ← hr_at hr (u32 (v + c));
  c ← index hand 4; v ← hr_at hr (u32 (v + c));
  c ← index hand 5; v ← hr_at hr (u32 (v + c));
  c ← index hand 6; hr_at hr (u32 (v + c)).

(** ** The comparator *)

(** The loop that finds the best value and counts the hands holding it;
    the state is [(winners, max)]. *)
Definition count_winners (v0 : Z) (rest : list Z) : Z * Z :=
  foldl (fun '(winners, max) v =>
           if decide (max < v) then (1, v)
           else if decide (v = max) then (int64 (winners + 1), max)
           else (winners, max))
        (1, v0) rest.

(** [evalHands]. In the two-hand case [result] is the difference of two
    [uint32] values, itself a [uint32]. *)
Definition evalHands (hr : Z → Z) (board : list Z) (hands : list (list Z))
  : result (list float) :=
  b ← evalBoard hr board;
  if decide (length hands = 2%nat) then
    h0 ← index hands 0; r0 ← evalHand hr b h0;
    h1 ← index hands 1; r1 ← evalHand hr b h1;
    let result := u32 (r0 - r1) in
    if decide (0 < result) then Ok [1; 0]%float
    else if decide (result < 0) then Ok [0; 1]%float
    else Ok [0.5; 0.5]%float
  else
    vals ← for_each (evalHand hr b) hands;
    v0 ← index vals 0;
    let '(winners, max) := count_winners v0 (drop 1 vals) in
    Ok (map (fun v => if decide (v = max) then (1 / float64_of_int winners)%float
                      else 0%float) vals).

(** ** Package [comb] *)

(** Modelled from the spec: [comb.Count], the closed-form count of the
    [k]-combinations of [n] items (the package is not part of this file). *)
Fixpoint comb_Count (n k : nat) : nat :=
  match n, k with
  | _, O => 1
  | O, S _ => 0
  | S n', S k' => comb_Count n' k' + comb_Count n' k
  end.

(** One order in which the [k]-combinations of [items] can be produced. *)
Fixpoint combinations (items : list Z) (k : nat) : list (list Z) :=
  match k, items with
  | O, _ => [[]]
  | S _, [] => []
  | S k', x :: rest => map (cons x) (combinations rest k') ++ combinations rest k
  end.

(** Modelled from the spec: a generator made by [comb.Generator(items, k)]
    is a finite sequence of combinations, not restartable, that hands out
    one combination per call in a buffer supplied by the caller and signals
    exhaustion through the boolean it returns. A generator is represented
    by the combinations it has not handed out yet. A call writes the next
    one into the buffer and answers whether more are left; a call on an
    exhausted generator answers [false] and leaves the buffer alone. *)
Definition gen_call (c : list (list Z)) (buf : list Z)
  : bool * list Z * list (list Z) :=
  match c with
  | [] => (false, buf, [])
  | x :: c' => (bool_decide (c' ≠ []), copy buf x, c')
  end.

(** [for loop { loop = c(buf); body }], entered with [loop] set: the body
    runs after every call, the last time after the call that answers
    [false]. *)
Fixpoint gen_loop {S} (body : list Z → S → result S)
    (c : list (list Z)) (buf : list Z) (s : S) : result (list Z * S) :=
  match c with
  | [] => s' ← body buf s; Ok (buf, s')
  | x :: c' =>
      let buf' := copy buf x in
      s' ← body buf' s;
      if bool_decide (c' ≠ []) then gen_loop body c' buf' s'
      else Ok (buf', s')
  end.

(** ** Set intersection of hands *)

(** The test of [intersect], with the evaluation order of [&&] and [||]. *)
Definition same_hand (v w : list Z) : result bool :=
  v0 ← index v 0; w0 ← index w 0;
  straight ← (if decide (v0 = w0)
              then v1 ← index v 1; w1 ← index w 1; Ok (bool_decide (v1 = w1))
              else Ok false);
  if straight : bool then Ok true
  else
    v0 ← index v 0; w1 ← index w 1;
    if decide (v0 = w1)
    then v1 ← index v 1; w0 ← index w 0; Ok (bool_decide (v1 = w0))
    else Ok false.

(** The inner loop of [intersect]: is [v] matched by an element of [b]? *)
Fixpoint matched (v : list Z) (b : list (list Z)) : result bool :=
  match b with
  | [] => Ok false
  | w :: b' => m ← same_hand v w; if m : bool then Ok true else matched v b'
  end.

Fixpoint intersect (a b : list (list Z)) : result (list (list Z)) :=
  match a with
  | [] => Ok []
  | v :: a' =>
      m ← matched v b;
      c ← intersect a' b;
      Ok (if m : bool then v :: c else c)
  end.

(** ** The lottery *)

Record Lottery : Type := { probs : list float; prizes : list string }.

(** [NewLottery]: [dist] lists the entries of the map in the order in which
    [range] visits them. The state of the loop is [(sum, lotto)]. *)
Definition NewLottery (dist : list (string * float)) : Lottery :=
  snd (foldl (fun '(sum, lotto) '(key, val) =>
                if negb (val =? 0)%float then
                  let sum := (sum + val)%float in
                  (sum, {| probs := probs lotto ++ [sum];
                           prizes := prizes lotto ++ [key] |})
                else (sum, lotto))
             (0%float, {| probs := []; prizes := [] |}) dist).

(** The loop of [Play] from position [i] on, then the fallback. *)
Fixpoint Play_from (this : Lottery) (draw : float) (i : Z) (ps : list float)
  : result string :=
  match ps with
  | [] => index (prizes this) (Z.of_nat (length (prizes this)) - 1)
  | p :: ps' =>
      if (draw <? p)%float then index (prizes this) i
      else Play_from this draw (i + 1) ps'
  end.

(** [Play], for the value [draw] that [rand.Float64()] returns. *)
Definition Play (this : Lottery) (draw : float) : result string :=
  Play_from this draw 0 (probs this).

(** ** Random numbers *)

(** The pseudo-random source: the raw value of the [n]-th draw. *)
Definition source : Type := nat → Z.

(** [rand.Intn(bound)] at draw [n]. *)
Definition Intn (src : source) (n : nat) (bound : Z) : Z := src n mod bound.

(** [a[j], a[i] = a[i], a[j]] *)
Definition swap (a : list Z) (j i : nat) : list Z :=
  match a !! i, a !! j with
  | Some ai, Some aj => <[i := aj]> (<[j := ai]> a)
  | _, _ => a
  end.

(** [shuffle], from draw [n] on; returns the number of the next draw. *)
Definition shuffle (src : source) (n : nat) (a : list Z) : list Z * nat :=
  foldl (fun '(a, n) i =>
           let j := Intn src n (Z.of_nat i + 1) in
           (swap a (Z.to_nat j) i, S n))
        (a, n) (reverse (seq 1 (length a - 1))).

(** ** Hole-card probabilities and equity *)

Section Equity.

(** Modelled from the spec: the combinations that a fresh generator made by
    [comb.Generator(items, k)] hands out, in the generator's own order. *)
Variable Generator : list Z → nat → list (list Z).

(** The ranking table and the pseudo-random source. *)
Variable hr : Z → Z.
Variable src : source.

(** The loop of [PHole] that calls the generator [combs] times and copies
    each hand into [allHands[i]]; the state is [(c, hand, allHands)]. *)
Definition PHole_fill (c : list (list Z)) (hand : list Z)
    (allHands : list (list Z)) (combs : nat)
  : list (list Z) * list Z * list (list Z) :=
  foldl (fun '(c, hand, allHands) i =>
           let '(_, hand, c) := gen_call c hand in
           (c, hand, alter (fun dst => copy dst hand) i allHands))
        (c, hand, allHands) (seq 0 combs).

(** [PHole]. [make([][]uint32, combs)] is a slice of [combs] nil slices. *)
Definition PHole (scards : list string) (hd : HandDist) : result float :=
  let cards := cardsToInts scards in
  let deck := NewDeck cards in
  let combs := comb_Count (length deck) 2 in
  let allHands := replicate combs [] in
  let c := Generator deck 2 in
  let hand := replicate 2 0 in
  let '(_, _, allHands) := PHole_fill c hand allHands combs in
  hands ← Ints hd;
  both ← intersect hands allHands;
  Ok (float64_of_int (Z.of_nat (length both))
      / float64_of_int (Z.of_nat (length allHands)))%float.

(** One trial: the share of [hole] against [oHole] on the board made of
    the [given] cards followed by the drawn ones. *)
Definition trial (hole given : list Z) (oHole drawn : list Z) : result float :=
  shares ← evalHands hr (given ++ drawn) [hole; oHole];
  index shares 0.

(** The inner loop of the exhaustive branch, on the state [(sum, count)];
    [drawn] is [board[bLen:]]. *)
Definition completions (hole given oHole : list Z)
    (c2 : list (list Z)) (drawn : list Z) (s : float * float)
  : result (list Z * (float * float)) :=
  gen_loop (fun drawn '(sum, count) =>
              e ← trial hole given oHole drawn;
              Ok (sum + e, count + 1)%float)
           c2 drawn s.

(** The outer loop of the exhaustive branch, on the state
    [(drawn, loop2, sum, count)]. The flag [loop2] is set once, before the
    outer loop, and holds [false] whenever an inner loop has ended. *)
Definition opponents (hole given deck : list Z) (k : nat)
    (c1 : list (list Z)) (oHole : list Z)
    (s : list Z * bool * (float * float))
  : result (list Z * (list Z * bool * (float * float))) :=
  gen_loop (fun oHole '(drawn, loop2, acc) =>
              let c2 := Generator (minus deck oHole) k in
              if loop2 : bool then
                '(drawn, acc) ← completions hole given oHole c2 drawn acc;
                Ok (drawn, false, acc)
              else Ok (drawn, loop2, acc))
           c1 oHole s.

(** The Monte-Carlo loop, on the state [(deck, drawn, sum)], from draw [n]
    on. [drawn] is [board[bLen:]] and receives [deck[2:8-bLen]]. The deck
    is the slice [c[:count]] that [minus] returns: its array [c] has 52
    elements, zero after the first [count], and [deck[:2]] and
    [deck[2:8-bLen]] are slices of that array, which may reach past the
    length of the deck. *)
Fixpoint samples (hole given : list Z) (trials : nat) (n : nat)
    (deck drawn : list Z) (sum : float) : result float :=
  match trials with
  | O => Ok sum
  | S trials' =>
      let '(deck, n) := shuffle src n deck in
      let array := deck ++ replicate (52 - length deck) 0 in
      let drawn := copy drawn (take (6 - length given) (drop 2 array)) in
      e ← trial hole given (take 2 array) drawn;
      samples hole given trials' n deck drawn (sum + e)%float
  end.

(** [HandEquity]; the result is the value sent on the channel. *)
Definition HandEquity (sHand sBoard : list string) (trials : Z)
  : result float :=
  let hole := cardsToInts sHand in
  let bLen := length sBoard in
  board ← (if decide (bLen ≤ 5)%nat
           then Ok (copy (replicate 5 0) (cardsToInts sBoard))
           else Panic (IndexOutOfRange 5 5));
  let deck := NewDeck (hole ++ board) in
  let given := take bLen board in
  let drawn := drop bLen board in
  if decide (trials = 0) then
    let oHole := replicate 2 0 in
    let c1 := Generator deck 2 in
    '(_, (_, _, (sum, count))) ←
      opponents hole given deck (5 - bLen) c1 oHole (drawn, true, (0, 0)%float);
    Ok (sum / count)%float
  else
    sum ← samples hole given (Z.to_nat trials) 0 deck drawn 0%float;
    Ok (sum / float64_of_int trials)%float.

End Equity.

(** The arithmetic of [HandEquity2]: [trials += trials % NCPU], then the
    number of trials [trials/NCPU] handed to each of the [NCPU] workers. *)
Definition HandEquity2_trials (trials NCPU : Z) : result Z :=
  if decide (NCPU = 0) then Panic DivideByZero
  else
    let trials := int64 (trials + Z.rem trials NCPU) in
    Ok (Z.quot trials NCPU).

(** ** Further functions of the file *)

(** [SplitRank]: category and rank within the category. *)
Definition SplitRank (rank : Z) : Z * Z :=
  (Z.shiftr rank 12, Z.land rank 4095).

(** [NewRRSDist]: [ranks[r1-2]] and [ranks[r2-2]] index the rank string. *)
Definition NewRRSDist (r1 r2 suit : Z) : result HandDist :=
  a ← index (bytes ranks) (int64 (r1 - 2));
  b ← index (bytes ranks) (int64 (r2 - 2));
  if decide (r1 = r2) then Ok {| Dist := str2 a b |}
  else if decide (0 < suit) then
    Ok {| Dist := String a (String b (String "s" EmptyString)) |}
  else Ok {| Dist := String a (String b (String "o" EmptyString)) |}.

(** * Notions used to state the properties *)

(** A table that is easy to trace by hand: every entry holds its own index,
    so a walk from offset 53 ends on 53 plus the sum of the cards. *)
Definition hr_index : Z → Z := fun i => i.

(** How many elements of [vals] equal [m]. *)
Definition occurrences (m : Z) (vals : list Z) : nat :=
  length (filter (λ v, v = m) vals).

(** The invariant of the loop that counts the winners: after the values
    [seen], [max] is the largest of them and [winners] counts its
    occurrences. *)
Definition winners_inv (seen : list Z) (s : Z * Z) : Prop :=
  let '(winners, max) := s in
  max ∈ seen ∧ Forall (λ v, v ≤ max) seen
  ∧ winners = Z.of_nat (occurrences max seen).

(** The entries that [NewLottery] keeps: those whose weight is not zero. *)
Definition kept (dist : list (string * float)) : list (string * float) :=
  filter (λ kv, (kv.2 =? 0)%float = false) dist.

(** The running sums of the weights [ws], starting from [sum]. *)
Fixpoint running (sum : float) (ws : list float) : list float :=
  match ws with
  | [] => []
  | w :: ws' => (sum + w)%float :: running (sum + w)%float ws'
  end.

(** The draw in the words of the specification: the label of the first
    entry whose cumulative value exceeds the draw, else the last label. *)
Definition first_exceeding (this : Lottery) (draw : float) : option string :=
  match List.find (λ e, (draw <? e.1)%float) (zip (probs this) (prizes this)) with
  | Some e => Some e.2
  | None => last (prizes this)
  end.

(** [string([]byte{a, b, c})] *)
Definition str3 (a b c : ascii) : string := String a (String b (String c EmptyString)).

(** The enumeration in the words of the specification: every 2-card
    opponent hand from the deck, each with every completion of the board
    drawn from the deck minus that hand. *)
Definition all_trials (Generator : list Z → nat → list (list Z))
    (deck : list Z) (k : nat) : list (list Z * list Z) :=
  oHole ← Generator deck 2%nat;
  drawn ← Generator (minus deck oHole) k;
  [(oHole, drawn)].

(** The arithmetic mean of the share of [hole] over all these trials. *)
Definition exhaustive_mean (Generator : list Z → nat → list (list Z))
    (hr : Z → Z) (hole given deck : list Z) (k : nat) : result float :=
  shares ← for_each (λ '(oHole, drawn), trial hr hole given oHole drawn)
                    (all_trials Generator deck k);
  Ok (foldl PrimFloat.add 0%float shares
      / float64_of_int (Z.of_nat (length shares)))%float.

(** The suit and the rank that the numbering of [init] gives a card. *)
Definition suit_of (c : Z) : Z := (c - 1) `mod` 4.
Definition rank_of (c : Z) : Z := (c - 1) `div` 4.


(** * Properties *)

(** ** Machine integers, slices, panics *)

#[local] Arguments u32 : simpl never.
#[local] Arguments int64 : simpl never.
#[local] Arguments hr_at : simpl never.

Lemma u32_range (z : Z) : 0 ≤ u32 z < 2 ^ 32.
Proof. unfold u32. apply Z.mod_pos_bound. lia. Qed.

Lemma u32_small (z : Z) : 0 ≤ z < 2 ^ 32 → u32 z = z.
Proof. intros Hz. unfold u32. by apply Z.mod_small. Qed.

Lemma int64_small (z : Z) : - 2 ^ 63 ≤ z < 2 ^ 63 → int64 z = z.
Proof. intros Hz. unfold int64. rewrite Z.mod_small; lia. Qed.

Lemma bind_Ok {A B} (r : result A) (f : A → result B) (b : B) :
  r ≫= f = Ok b ↔ ∃ a, r = Ok a ∧ f a = Ok b.
Proof.
  destruct r as [a|p]; cbn.
  - split; [eauto | by intros (? & [= ->] & ?)].
  - split; [done | by intros (? & ? & ?)].
Qed.

Lemma index_Ok {A} (s : list A) (i : nat) (a : A) :
  s !! i = Some a → index s (Z.of_nat i) = Ok a.
Proof.
  intros Hs. unfold index.
  destruct (decide (0 ≤ Z.of_nat i)); [|lia].
  by rewrite Nat2Z.id, Hs.
Qed.

Lemma for_each_length {A B} (f : A → result B) (s : list A) (bs : list B) :
  for_each f s = Ok bs → length bs = length s.
Proof.
  revert bs. induction s as [|a s IH]; intros bs; cbn.
  - by intros [= <-].
  - destruct (f a) as [b|]; cbn; [|done].
    destruct (for_each f s) as [bs'|]; cbn; [|done].
    intros [= <-]. cbn. f_equal. by apply IH.
Qed.

(** ** Ranks are [uint32] values *)

Lemma hr_at_range (hr : Z → Z) (i r : Z) :
  hr_at hr i = Ok r → 0 ≤ r < 2 ^ 32.
Proof.
  unfold hr_at. case_decide; [|done]. intros [= <-]. apply u32_range.
Qed.

Lemma evalHand_range (hr : Z → Z) (b : Z) (cards : list Z) (r : Z) :
  evalHand hr b cards = Ok r → 0 ≤ r < 2 ^ 32.
Proof.
  unfold evalHand. intros H.
  repeat (apply bind_Ok in H as (? & _ & H)).
  by eapply hr_at_range.
Qed.

(** ** Split evaluation against a pre-folded board *)

(** C7. For every table, every 5-card board and every 2-card hole hand,
    pre-folding the board with [evalBoard] from offset 53 and folding in the
    two hole cards with [evalHand] gives the result of the single chain of
    seven lookups that [EvalHand] runs on the board followed by the hole
    cards: the same rank, or the same panic where the table sends the walk
    out of its range. *)
Theorem evalHand_evalBoard_EvalHand (hr : Z → Z) (sb sh : list string) :
  length sb = 5%nat → length sh = 2%nat →
  (b ← evalBoard hr (cardsToInts sb); evalHand hr b (cardsToInts sh))
  = EvalHand hr (sb ++ sh).
Proof.
  intros Hb Hh. unfold EvalHand, cardsToInts. rewrite map_app.
  rewrite <- (length_map CTOI_at) in Hb, Hh.
  revert Hb Hh. generalize (map CTOI_at sb) (map CTOI_at sh).
  intros b h Hb Hh.
  destruct b as [|b0 [|b1 [|b2 [|b3 [|b4 [|]]]]]]; try discriminate Hb.
  destruct h as [|h0 [|h1 [|]]]; try discriminate Hh.
  unfold evalBoard, evalHand, index. simpl.
  repeat (match goal with
          | |- context [hr_at hr ?i] => destruct (hr_at hr i); simpl
          end; try reflexivity).
Qed.

Lemma evalHand_evalBoard_EvalHand_witness :
  (b ← evalBoard hr_index (cardsToInts ["2c"; "2d"; "2h"; "2s"; "3c"]);
   evalHand hr_index b (cardsToInts ["3d"; "3h"]))
  = EvalHand hr_index (["2c"; "2d"; "2h"; "2s"; "3c"] ++ ["3d"; "3h"]).
Proof. apply evalHand_evalBoard_EvalHand; reflexivity. Defined.

(** ** The comparator on two hands *)

(** What the two-hand case of [evalHands] returns, in terms of the two
    ranks: the first hand takes the whole pot whenever the ranks differ. *)
Lemma evalHands_two_hands (hr : Z → Z) (board h0 h1 : list Z) (b r0 r1 : Z) :
  evalBoard hr board = Ok b →
  evalHand hr b h0 = Ok r0 →
  evalHand hr b h1 = Ok r1 →
  evalHands hr board [h0; h1]
  = Ok (if decide (r0 = r1) then [0.5; 0.5]%float else [1; 0]%float).
Proof.
  intros Hb H0 H1. unfold evalHands. rewrite Hb. simpl.
  rewrite H0. simpl. rewrite H1. simpl.
  apply evalHand_range in H0, H1.
  pose proof (u32_range (r0 - r1)) as Hu.
  destruct (decide (r0 = r1)) as [->|Hne].
  - rewrite Z.sub_diag. done.
  - assert (u32 (r0 - r1) ≠ 0) as Hnz.
    { unfold u32. intros Hz. apply Z.mod_divide in Hz; [|lia].
      destruct Hz as [q Hq]. nia. }
    destruct (decide (0 < u32 (r0 - r1))); [done | lia].
Qed.

(** C1 (fails on the code). On two hands, when the rank of the first hand
    is strictly less than the rank of the second, [evalHands] returns
    [[1, 0]], not the [[0, 1]] the claim states: the difference of the two
    [uint32] ranks wraps around to a positive value, and the case
    [result < 0] is never taken. *)
Theorem evalHands_two_hands_lower_rank_takes_pot
    (hr : Z → Z) (board h0 h1 : list Z) (b r0 r1 : Z) :
  evalBoard hr board = Ok b →
  evalHand hr b h0 = Ok r0 →
  evalHand hr b h1 = Ok r1 →
  r0 < r1 →
  evalHands hr board [h0; h1] = Ok [1; 0]%float.
Proof.
  intros Hb H0 H1 Hlt.
  rewrite (evalHands_two_hands hr board h0 h1 b r0 r1 Hb H0 H1).
  destruct (decide (r0 = r1)); [lia | done].
Qed.

Lemma evalHands_two_hands_lower_rank_takes_pot_witness :
  evalHands hr_index [1; 2; 3; 4; 5] [[6; 7]; [8; 9]] = Ok [1; 0]%float.
Proof.
  apply (evalHands_two_hands_lower_rank_takes_pot
           hr_index [1; 2; 3; 4; 5] [6; 7] [8; 9] 68 81 85);
    [reflexivity | reflexivity | reflexivity | lia].
Defined.

(** The two cases in which the two-hand path agrees with the claim. *)
Lemma evalHands_two_hands_higher (hr : Z → Z) (board h0 h1 : list Z) (b r0 r1 : Z) :
  evalBoard hr board = Ok b →
  evalHand hr b h0 = Ok r0 →
  evalHand hr b h1 = Ok r1 →
  r1 < r0 →
  evalHands hr board [h0; h1] = Ok [1; 0]%float.
Proof.
  intros Hb H0 H1 Hlt.
  rewrite (evalHands_two_hands hr board h0 h1 b r0 r1 Hb H0 H1).
  destruct (decide (r0 = r1)); [lia | done].
Qed.

Lemma evalHands_two_hands_equal (hr : Z → Z) (board h0 h1 : list Z) (b r : Z) :
  evalBoard hr board = Ok b →
  evalHand hr b h0 = Ok r →
  evalHand hr b h1 = Ok r →
  evalHands hr board [h0; h1] = Ok [0.5; 0.5]%float.
Proof.
  intros Hb H0 H1.
  rewrite (evalHands_two_hands hr board h0 h1 b r r Hb H0 H1).
  by destruct (decide (r = r)).
Qed.

(** ** The comparator on any other number of hands *)

Lemma occurrences_app (m : Z) (xs ys : list Z) :
  occurrences m (xs ++ ys) = (occurrences m xs + occurrences m ys)%nat.
Proof. unfold occurrences. by rewrite filter_app, length_app. Qed.

Lemma occurrences_le (m : Z) (vals : list Z) :
  (occurrences m vals ≤ length vals)%nat.
Proof. unfold occurrences. apply length_filter. Qed.

Lemma occurrences_above (m : Z) (vals : list Z) :
  Forall (λ v, v < m) vals → occurrences m vals = 0%nat.
Proof.
  unfold occurrences. induction 1 as [|v vals Hv _ IH]; [done|].
  rewrite filter_cons_False by lia. done.
Qed.

Lemma occurrences_pos (m : Z) (vals : list Z) :
  m ∈ vals → (1 ≤ occurrences m vals)%nat.
Proof.
  unfold occurrences. intros Hm.
  assert (m ∈ filter (λ v, v = m) vals) as Hin by (by apply list_elem_of_filter).
  destruct (filter (λ v, v = m) vals); [by apply elem_of_nil in Hin | cbn; lia].
Qed.

Lemma count_winners_inv (seen rest : list Z) (winners max : Z) :
  Z.of_nat (length (seen ++ rest)) < 2 ^ 63 →
  winners_inv seen (winners, max) →
  winners_inv (seen ++ rest)
    (foldl (fun '(winners, max) v =>
              if decide (max < v) then (1, v)
              else if decide (v = max) then (int64 (winners + 1), max)
              else (winners, max))
           (winners, max) rest).
Proof.
  revert seen winners max.
  induction rest as [|v rest IH]; intros seen winners max Hlen Hinv.
  { by rewrite app_nil_r. }
  replace (seen ++ v :: rest) with ((seen ++ [v]) ++ rest) in *
    by (by rewrite <- app_assoc).
  cbn [foldl]. destruct Hinv as (Hin & Hle & Hw).
  destruct (decide (max < v)) as [Hlt|Hge]; [|destruct (decide (v = max)) as [->|Hne]];
    apply IH; try done; unfold winners_inv.
  - split_and!.
    + apply elem_of_app. right. by apply list_elem_of_singleton.
    + apply Forall_app. split; [|by repeat constructor].
      eapply Forall_impl; [exact Hle|]. cbn. lia.
    + rewrite occurrences_app, (occurrences_above v seen).
      * unfold occurrences. by rewrite filter_cons_True.
      * eapply Forall_impl; [exact Hle|]. cbn. lia.
  - split_and!.
    + apply elem_of_app. by left.
    + apply Forall_app. split; [done | by repeat constructor].
    + rewrite occurrences_app. unfold occurrences at 2.
      rewrite filter_cons_True by done. cbn [filter list_filter length].
      pose proof (occurrences_le max seen).
      rewrite !length_app in Hlen. cbn [length] in Hlen.
      rewrite int64_small; lia.
  - split_and!.
    + apply elem_of_app. by left.
    + apply Forall_app. split; [done|]. repeat constructor. lia.
    + rewrite occurrences_app. unfold occurrences at 2.
      rewrite filter_cons_False by done. cbn. lia.
Qed.

Lemma count_winners_spec (v0 : Z) (rest : list Z) :
  Z.of_nat (length (v0 :: rest)) < 2 ^ 63 →
  winners_inv (v0 :: rest) (count_winners v0 rest).
Proof.
  intros Hlen. unfold count_winners.
  apply (count_winners_inv [v0] rest 1 v0 Hlen).
  split_and!.
  - by apply list_elem_of_singleton.
  - by repeat constructor.
  - unfold occurrences. by rewrite filter_cons_True.
Qed.

(** The general path of [evalHands] (any number of hands but two): with
    [max] the best rank and [W] the number of hands that hold it, every
    hand of rank [max] receives [1 / W] and every other hand [0]; [W] lies
    between 1 and the number of hands, so exactly [W] entries are
    [1 / W]. *)
Lemma evalHands_general_path
    (hr : Z → Z) (board : list Z) (hands : list (list Z)) (b : Z) (vals : list Z) :
  length hands ≠ 2%nat →
  hands ≠ [] →
  Z.of_nat (length hands) < 2 ^ 63 →
  evalBoard hr board = Ok b →
  for_each (evalHand hr b) hands = Ok vals →
  ∃ (max : Z) (W : nat),
    max ∈ vals ∧ Forall (λ v, v ≤ max) vals
    ∧ W = occurrences max vals ∧ (1 ≤ W ≤ length hands)%nat
    ∧ evalHands hr board hands
      = Ok (map (λ v, if decide (v = max)
                      then (1 / float64_of_int (Z.of_nat W))%float
                      else 0%float) vals).
Proof.
  intros Hn2 Hne Hlen Hb Hvals.
  pose proof (for_each_length _ _ _ Hvals) as Hl.
  destruct vals as [|v0 rest]; [by destruct hands|].
  pose proof (count_winners_spec v0 rest) as Hinv.
  rewrite Hl in Hinv. specialize (Hinv Hlen).
  unfold evalHands. rewrite Hb. cbn [mbind result_bind].
  destruct (decide (length hands = 2%nat)); [done|].
  rewrite Hvals. cbn [mbind result_bind].
  change (index (v0 :: rest) 0) with (Ok v0).
  change (drop 1 (v0 :: rest)) with rest. cbn [mbind result_bind].
  destruct (count_winners v0 rest) as [winners max].
  destruct Hinv as (Hin & Hle & ->).
  exists max, (occurrences max (v0 :: rest)). split_and!; try done.
  - by apply occurrences_pos.
  - rewrite <- Hl. apply occurrences_le.
Qed.

(** C5 (fails on the code, through the defect of C1). On two hands the
    best hand need not receive [1 / W]: with the ranks 81 and 85 the second
    hand alone holds the best rank ([W = 1]), yet it receives [0] and the
    first hand receives [1]. The sum of the shares is still 1. *)
Theorem evalHands_two_hands_best_hand_gets_nothing :
  evalBoard hr_index [1; 2; 3; 4; 5] = Ok 68
  ∧ evalHand hr_index 68 [6; 7] = Ok 81
  ∧ evalHand hr_index 68 [8; 9] = Ok 85
  ∧ occurrences 85 [81; 85] = 1%nat
  ∧ evalHands hr_index [1; 2; 3; 4; 5] [[6; 7]; [8; 9]] = Ok [1; 0]%float.
Proof. repeat split. Qed.

(** ** The share of trials of each worker *)

(** What [HandEquity2] computes for non-negative [trials] and at least one
    worker: the share is the quotient, plus one when twice the remainder
    reaches [NCPU], so that the realized total is the multiple of [NCPU]
    nearest to [trials], below it as well as above. *)
Lemma HandEquity2_trials_nearest (trials NCPU : Z) :
  0 ≤ trials → 0 < NCPU → trials + NCPU < 2 ^ 63 →
  HandEquity2_trials trials NCPU
  = Ok (trials `div` NCPU
        + (if decide (NCPU ≤ 2 * (trials `mod` NCPU)) then 1 else 0)).
Proof.
  intros Ht Hn Hbound. unfold HandEquity2_trials.
  destruct (decide (NCPU = 0)); [lia|].
  rewrite Z.rem_mod_nonneg by lia.
  pose proof (Z.mod_pos_bound trials NCPU Hn) as Hr.
  rewrite int64_small by lia.
  rewrite Z.quot_div_nonneg by lia.
  f_equal.
  rewrite (Z.div_mod trials NCPU) at 1 by lia.
  replace (NCPU * (trials `div` NCPU) + trials `mod` NCPU + trials `mod` NCPU)
    with (2 * (trials `mod` NCPU) + (trials `div` NCPU) * NCPU) by lia.
  rewrite Z.div_add by lia.
  case_decide.
  - assert ((2 * (trials `mod` NCPU)) `div` NCPU = 1) as ->; [|lia].
    symmetry. apply (Z.div_unique _ _ 1 (2 * (trials `mod` NCPU) - NCPU)); lia.
  - rewrite Z.div_small by lia. lia.
Qed.

(** C4 (fails on the code). [trials += trials % NCPU] does not round up
    to a multiple of [NCPU]: for 5 trials on 4 workers each worker gets 1
    trial, 4 in total, fewer than requested; for 7 trials [trials] becomes
    10, which is not a multiple of 4; and for 1 trial each worker gets 0
    trials, the value that selects exhaustive enumeration. *)
Theorem HandEquity2_trials_rounds_down :
  HandEquity2_trials 5 4 = Ok 1 ∧ 4 * 1 < 5
  ∧ int64 (7 + Z.rem 7 4) = 10 ∧ Z.rem 10 4 ≠ 0
  ∧ HandEquity2_trials 1 4 = Ok 0.
Proof. repeat split; done. Qed.

(** ** The expansions of a hand distribution *)

Lemma Strs_pair (a b : ascii) :
  Strs {| Dist := str2 a b |}
  = Ok [[str2 a "c"; str2 a "d"]; [str2 a "c"; str2 a "h"];
        [str2 a "c"; str2 a "s"]; [str2 a "d"; str2 a "h"];
        [str2 a "d"; str2 a "s"]; [str2 a "h"; str2 a "s"]].
Proof. reflexivity. Qed.

Lemma Strs_offsuit (a b : ascii) (more : string) :
  Strs {| Dist := String a (String b (String "o" more)) |}
  = Ok [[str2 a "c"; str2 b "d"]; [str2 a "c"; str2 b "h"];
        [str2 a "c"; str2 b "s"]; [str2 a "d"; str2 b "c"];
        [str2 a "d"; str2 b "h"]; [str2 a "d"; str2 b "s"];
        [str2 a "h"; str2 b "c"]; [str2 a "h"; str2 b "d"];
        [str2 a "h"; str2 b "s"]; [str2 a "s"; str2 b "c"];
        [str2 a "s"; str2 b "d"]; [str2 a "s"; str2 b "h"]].
Proof. reflexivity. Qed.

Lemma Strs_suited (a b c : ascii) (more : string) :
  c ≠ "o"%char →
  Strs {| Dist := String a (String b (String c more)) |}
  = Ok [[str2 a "c"; str2 b "c"]; [str2 a "d"; str2 b "d"];
        [str2 a "h"; str2 b "h"]; [str2 a "s"; str2 b "s"]].
Proof.
  intros Hc. unfold Strs. cbn [Dist bytes String.list_ascii_of_string].
  set (d := a :: b :: c :: _).
  change (index d 0) with (Ok a). change (index d 1) with (Ok b).
  change (index d 2) with (Ok c). cbn [mbind result_bind].
  destruct (decide (length d = 2%nat)) as [Hd|_]; [discriminate Hd|].
  destruct (decide (c = "o"%char)); [done | reflexivity].
Qed.

(** A token of fewer than two bytes makes [Strs] panic; any other token
    expands to at least one hand, and every hand has two cards. *)
Lemma Strs_short (hd : HandDist) :
  (length (bytes (Dist hd)) < 2)%nat → ∃ p, Strs hd = Panic p.
Proof.
  destruct hd as [[|a [|b d]]]; cbn; [eauto | eauto | lia].
Qed.

Lemma Ints_head (hd : HandDist) :
  (2 ≤ length (bytes (Dist hd)))%nat →
  ∃ x y rest, Ints hd = Ok ([x; y] :: rest).
Proof.
  destruct hd as [[|a [|b [|c d]]]]; cbn [Dist bytes String.list_ascii_of_string length];
    [lia | lia | |]; intros _; unfold Ints.
  - change (String a (String b EmptyString)) with (str2 a b).
    rewrite Strs_pair. cbn. eauto.
  - destruct (decide (c = "o"%char)) as [->|Hc].
    + rewrite Strs_offsuit. cbn. eauto.
    + rewrite Strs_suited by done. cbn. eauto.
Qed.

(** ** The hole-card estimator *)

Lemma copy_nil_dst {A} (src : list A) : copy [] src = [].
Proof. unfold copy. cbn. by rewrite take_0, drop_nil. Qed.

Lemma alter_copy_nil (hand : list Z) (i m : nat) :
  alter (λ dst, copy dst hand) i (replicate m []) = replicate m [].
Proof.
  revert i. induction m as [|m IH]; intros [|i]; try done.
  - cbn [replicate alter list_alter]. by rewrite copy_nil_dst.
  - cbn [replicate alter list_alter]. f_equal. apply IH.
Qed.

(** [copy(allHands[i], hand)] copies into a nil slice, that is, nothing:
    after the loop [allHands] still holds nil slices only. *)
Lemma PHole_fill_nil (c : list (list Z)) (hand : list Z) (m combs : nat) :
  snd (PHole_fill c hand (replicate m []) combs) = replicate m [].
Proof.
  unfold PHole_fill. generalize (seq 0 combs) as steps.
  intros steps. revert c hand.
  induction steps as [|i steps IH]; intros c hand; [done|].
  cbn [foldl].
  destruct (gen_call c hand) as [[more hand'] c'].
  rewrite alter_copy_nil. apply IH.
Qed.

Lemma comb_Count_pos (n k : nat) : (k ≤ n → 1 ≤ comb_Count n k)%nat.
Proof.
  revert k. induction n as [|n IH]; intros [|k] Hk; cbn; try lia.
  specialize (IH k). lia.
Qed.

Lemma intersect_nil_slice (x y : Z) (rest b : list (list Z)) :
  intersect ([x; y] :: rest) ([] :: b) = Panic (IndexOutOfRange 0 0).
Proof. reflexivity. Qed.

(** C3 (fails on the code). For visible cards that leave at least two
    cards in the deck and a token of at least two bytes, [PHole] returns no
    ratio: every [allHands[i]] is still a nil slice when [intersect] reads
    [w[0]], and the call panics with an index out of range. *)
Theorem PHole_panics
    (Generator : list Z → nat → list (list Z))
    (scards : list string) (hd : HandDist) :
  (2 ≤ length (NewDeck (cardsToInts scards)))%nat →
  (2 ≤ length (bytes (Dist hd)))%nat →
  PHole Generator scards hd = Panic (IndexOutOfRange 0 0).
Proof.
  intros Hdeck Htok. unfold PHole.
  pose proof (PHole_fill_nil (Generator (NewDeck (cardsToInts scards)) 2%nat)
                (replicate 2%nat 0)
                (comb_Count (length (NewDeck (cardsToInts scards))) 2%nat)
                (comb_Count (length (NewDeck (cardsToInts scards))) 2%nat)) as Hfill.
  destruct (PHole_fill _ _ _ _) as [[c hand] allHands].
  cbn [snd] in Hfill. subst allHands.
  destruct (Ints_head hd Htok) as (x & y & rest & ->).
  pose proof (comb_Count_pos _ 2%nat Hdeck) as Hpos.
  destruct (comb_Count _ 2%nat) as [|combs]; [lia|].
  cbn [replicate mbind result_bind].
  by rewrite intersect_nil_slice.
Qed.

Lemma PHole_panics_witness :
  PHole combinations [] {| Dist := "AA" |} = Panic (IndexOutOfRange 0 0).
Proof.
  apply (PHole_panics combinations [] {| Dist := "AA" |}).
  - vm_compute. lia.
  - vm_compute. lia.
Defined.

(** What the comment above [PHole] asks for, before the deal: the six
    hands of [AA] are all among the 1326 hands of the full deck. *)
Example PHole_AA_by_hand :
  (hands ← Ints {| Dist := "AA" |};
   both ← intersect hands (combinations (NewDeck []) 2);
   Ok (length both, length (combinations (NewDeck []) 2)))
  = Ok (6%nat, 1326%nat).
Proof. vm_compute. reflexivity. Qed.

(** ** The lottery *)

Lemma NewLottery_foldl (dist : list (string * float)) (sum : float) (lotto : Lottery) :
  snd (foldl (fun '(sum, lotto) '(key, val) =>
                if negb (val =? 0)%float then
                  let sum := (sum + val)%float in
                  (sum, {| probs := probs lotto ++ [sum];
                           prizes := prizes lotto ++ [key] |})
                else (sum, lotto))
             (sum, lotto) dist)
  = {| probs := probs lotto ++ running sum (kept dist).*2;
       prizes := prizes lotto ++ (kept dist).*1 |}.
Proof.
  revert sum lotto. induction dist as [|[key val] dist IH]; intros sum lotto.
  { cbn. rewrite !app_nil_r. by destruct lotto. }
  cbn [foldl]. unfold kept.
  destruct (val =? 0)%float eqn:Hval; cbn [negb].
  - rewrite filter_cons_False by (cbn; congruence). apply IH.
  - rewrite filter_cons_True by done.
    rewrite IH. cbn [probs prizes fmap list_fmap running fst snd].
    by rewrite <- !app_assoc.
Qed.

(** [NewLottery] skips the zero-weight entries and appends, for each other
    entry in iteration order, the running sum and the label. *)
Lemma NewLottery_kept (dist : list (string * float)) :
  NewLottery dist
  = {| probs := running 0 (kept dist).*2; prizes := (kept dist).*1 |}.
Proof. unfold NewLottery. by rewrite NewLottery_foldl. Qed.

Lemma running_length (sum : float) (ws : list float) :
  length (running sum ws) = length ws.
Proof. revert sum. induction ws as [|w ws IH]; intros sum; cbn; [done|]. by rewrite IH. Qed.

Lemma NewLottery_lengths (dist : list (string * float)) :
  length (probs (NewLottery dist)) = length (prizes (NewLottery dist)).
Proof.
  rewrite NewLottery_kept. cbn. by rewrite running_length, !length_fmap.
Qed.

Lemma index_last (s : list string) :
  index s (Z.of_nat (length s) - 1)
  = match last s with
    | Some label => Ok label
    | None => Panic (IndexOutOfRange (-1) 0)
    end.
Proof.
  destruct s as [|a s] using rev_ind; [done|].
  rewrite last_snoc, length_app. cbn [length].
  replace (Z.of_nat (length s + 1) - 1) with (Z.of_nat (length s)) by lia.
  apply index_Ok. rewrite lookup_app_r by lia.
  by rewrite Nat.sub_diag.
Qed.

Lemma Play_from_spec (this : Lottery) (draw : float)
    (seen : list string) (ps : list float) (qs : list string) :
  prizes this = seen ++ qs →
  length ps = length qs →
  Play_from this draw (Z.of_nat (length seen)) ps
  = match List.find (λ e, (draw <? e.1)%float) (zip ps qs) with
    | Some e => Ok e.2
    | None => match last (prizes this) with
              | Some label => Ok label
              | None => Panic (IndexOutOfRange (-1) 0)
              end
    end.
Proof.
  revert seen qs. induction ps as [|p ps IH]; intros seen [|q qs] Hpr Hlen;
    try discriminate Hlen.
  - cbn. apply index_last.
  - cbn [Play_from zip zip_with List.find fst snd].
    destruct (draw <? p)%float.
    + apply index_Ok. rewrite Hpr. rewrite lookup_app_r by lia.
      by rewrite Nat.sub_diag.
    + replace (Z.of_nat (length seen) + 1) with (Z.of_nat (length (seen ++ [q])))
        by (rewrite length_app; cbn; lia).
      apply IH.
      * by rewrite <- app_assoc.
      * by injection Hlen.
Qed.

(** C8. For every sequence of entries handed to [NewLottery] and every
    draw, [Play] returns the label of the first entry whose cumulative
    value strictly exceeds the draw and, when there is none, the label of
    the last entry; the lottery holds the running sums and labels of the
    entries of non-zero weight, in iteration order. Only a lottery without
    any entry has no last label, and there [Play] panics. *)
Theorem Play_NewLottery (dist : list (string * float)) (draw : float) :
  NewLottery dist
  = {| probs := running 0 (kept dist).*2; prizes := (kept dist).*1 |}
  ∧ Play (NewLottery dist) draw
    = match first_exceeding (NewLottery dist) draw with
      | Some label => Ok label
      | None => Panic (IndexOutOfRange (-1) 0)
      end
  ∧ (first_exceeding (NewLottery dist) draw = None ↔ kept dist = []).
Proof.
  split; [apply NewLottery_kept|]. split.
  - unfold Play, first_exceeding.
    pose proof (Play_from_spec (NewLottery dist) draw [] (probs (NewLottery dist))
                  (prizes (NewLottery dist)) eq_refl (NewLottery_lengths dist)) as Hp.
    change (Z.of_nat (length [])) with 0 in Hp. rewrite Hp.
    by destruct (List.find _ _).
  - rewrite NewLottery_kept. unfold first_exceeding. cbn [probs prizes].
    generalize (kept dist) as ks. intros ks.
    destruct ks as [|kv ks _] using rev_ind; [done|].
    split; [|intros Hnil; by apply app_eq_nil in Hnil as [_ ?]].
    rewrite (fmap_app fst). cbn [fmap list_fmap]. rewrite last_snoc.
    by destruct (List.find _ _).
Qed.

(** C10. When every weight is zero (in particular when there is no entry at
    all), [NewLottery] returns a lottery whose [probs] and [prizes] are both
    empty, and [Play] on it returns no label: it reads
    [prizes[len(prizes)-1]], index -1 of a slice of length 0, and panics. *)
Theorem Play_empty_lottery_panics (dist : list (string * float)) (draw : float) :
  Forall (λ kv, (kv.2 =? 0)%float = true) dist →
  NewLottery dist = {| probs := []; prizes := [] |}
  ∧ Play (NewLottery dist) draw = Panic (IndexOutOfRange (-1) 0).
Proof.
  intros Hzero.
  assert (kept dist = []) as Hk.
  { unfold kept. induction Hzero as [|kv dist Hkv _ IH]; [done|].
    rewrite filter_cons_False by congruence. exact IH. }
  assert (NewLottery dist = {| probs := []; prizes := [] |}) as ->.
  { rewrite NewLottery_kept, Hk. done. }
  done.
Qed.

Lemma Play_empty_lottery_panics_witness :
  NewLottery [("fold", 0%float); ("call", (-0)%float)]
  = {| probs := []; prizes := [] |}
  ∧ Play (NewLottery [("fold", 0%float); ("call", (-0)%float)]) 0.5%float
    = Panic (IndexOutOfRange (-1) 0).
Proof.
  apply (Play_empty_lottery_panics
           [("fold", 0%float); ("call", (-0)%float)] 0.5%float).
  repeat constructor.
Defined.

Example Play_first (draw := 0.125%float) :
  Play (NewLottery [("fold", 0.25%float); ("check", 0%float); ("call", 0.5%float)]) draw
  = Ok "fold".
Proof. reflexivity. Qed.

Example Play_second (draw := 0.5%float) :
  Play (NewLottery [("fold", 0.25%float); ("check", 0%float); ("call", 0.5%float)]) draw
  = Ok "call".
Proof. reflexivity. Qed.

Example Play_fallback (draw := 0.875%float) :
  Play (NewLottery [("fold", 0.25%float); ("check", 0%float); ("call", 0.5%float)]) draw
  = Ok "call".
Proof. reflexivity. Qed.

(** ** Cardinality of the expansions *)


(** Case analysis on the position [i] of a lookup [H] in an explicit list. *)
Ltac pick i H :=
  repeat match type of H with
         | (_ :: _) !! i = Some _ =>
             destruct i as [|i]; cbn [lookup list_lookup] in H
         end;
  try discriminate H.






(** ** Card strings outside the alphabet *)

(** The keys of [CTOI] are the 52 card names, and its values the integers
    1 to 52. *)
Lemma CTOI_Some (c : string) (k : Z) :
  CTOI !! c = Some k → c ∈ card_names ∧ 1 ≤ k ≤ 52.
Proof.
  intros Hk. apply elem_of_map_to_list in Hk.
  assert (Forall (λ ck, ck.1 ∈ card_names ∧ 1 ≤ ck.2 ≤ 52) (map_to_list CTOI))
    as Hall by compute_done.
  rewrite Forall_forall in Hall. exact (Hall (c, k) Hk).
Qed.

Lemma CTOI_card_names (c : string) :
  c ∈ card_names → ∃ k, CTOI !! c = Some k.
Proof.
  assert (Forall (λ c, is_Some (CTOI !! c)) card_names)
    as Hall by compute_done.
  rewrite Forall_forall in Hall. intros Hc. exact (Hall c Hc).
Qed.

(** A card string reads as 0 exactly when it is not a card name. *)
Lemma CTOI_at_zero (c : string) : CTOI_at c = 0 ↔ c ∉ card_names.
Proof.
  unfold CTOI_at. split.
  - intros Hz Hc. destruct (CTOI_card_names c Hc) as [k Hk].
    rewrite Hk in Hz. cbn in Hz. apply CTOI_Some in Hk. lia.
  - intros Hc. destruct (CTOI !! c) as [k|] eqn:Hk; [|done].
    by apply CTOI_Some in Hk as [? _].
Qed.

Lemma cardsToInts_insert_unknown (cards : list string) (i : nat) (c c' : string) :
  cards !! i = Some c → c ∉ card_names → c' ∉ card_names →
  cardsToInts (<[i := c']> cards) = cardsToInts cards.
Proof.
  intros Hi Hc Hc'. unfold cardsToInts.
  change (map CTOI_at) with (fmap (M:=list) CTOI_at).
  rewrite list_fmap_insert. apply list_insert_id.
  rewrite list_lookup_fmap, Hi. cbn. f_equal.
  apply CTOI_at_zero in Hc, Hc'. congruence.
Qed.

(** C9, as the code has it. A card string outside the 52-card alphabet is
    not reported: [cardsToInts] returns one integer per string, and the
    integer 0, the zero value of the map, for such a string. [EvalHand],
    [PHole] and [HandEquity] go on with that integer: what they return, a
    number or a panic, is the same whichever string outside the alphabet
    stands in that position. *)
Theorem cardsToInts_unknown_card (cards : list string) (i : nat) (c c' : string) :
  cards !! i = Some c →
  c ∉ card_names →
  c' ∉ card_names →
  length (cardsToInts cards) = length cards
  ∧ cardsToInts cards !! i = Some 0
  ∧ cardsToInts (<[i := c']> cards) = cardsToInts cards
  ∧ (∀ hr, EvalHand hr (<[i := c']> cards) = EvalHand hr cards)
  ∧ (∀ Generator hd,
       PHole Generator (<[i := c']> cards) hd = PHole Generator cards hd)
  ∧ (∀ Generator hr src other trials,
       HandEquity Generator hr src (<[i := c']> cards) other trials
       = HandEquity Generator hr src cards other trials
       ∧ HandEquity Generator hr src other (<[i := c']> cards) trials
         = HandEquity Generator hr src other cards trials).
Proof.
  intros Hi Hc Hc'.
  pose proof (cardsToInts_insert_unknown cards i c c' Hi Hc Hc') as Heq.
  split_and!.
  - apply length_map.
  - unfold cardsToInts. change (map CTOI_at cards) with (CTOI_at <$> cards).
    rewrite list_lookup_fmap, Hi. cbn. f_equal. by apply CTOI_at_zero.
  - exact Heq.
  - intros hr. unfold EvalHand. by rewrite Heq.
  - intros Generator hd. unfold PHole. by rewrite Heq.
  - intros Generator hr src other trials. unfold HandEquity. split.
    + by rewrite Heq.
    + by rewrite length_insert, Heq.
Qed.

Lemma cardsToInts_unknown_card_witness :
  length (cardsToInts ["Ah"; "Xx"]) = length ["Ah"; "Xx"]
  ∧ cardsToInts ["Ah"; "Xx"] !! 1%nat = Some 0
  ∧ cardsToInts (<[1%nat := "1z"]> ["Ah"; "Xx"]) = cardsToInts ["Ah"; "Xx"]
  ∧ (∀ hr, EvalHand hr (<[1%nat := "1z"]> ["Ah"; "Xx"]) = EvalHand hr ["Ah"; "Xx"])
  ∧ (∀ Generator hd,
       PHole Generator (<[1%nat := "1z"]> ["Ah"; "Xx"]) hd
       = PHole Generator ["Ah"; "Xx"] hd)
  ∧ (∀ Generator hr src other trials,
       HandEquity Generator hr src (<[1%nat := "1z"]> ["Ah"; "Xx"]) other trials
       = HandEquity Generator hr src ["Ah"; "Xx"] other trials
       ∧ HandEquity Generator hr src other (<[1%nat := "1z"]> ["Ah"; "Xx"]) trials
         = HandEquity Generator hr src other ["Ah"; "Xx"] trials).
Proof.
  apply (cardsToInts_unknown_card ["Ah"; "Xx"] 1 "Xx" "1z").
  - reflexivity.
  - compute_done.
  - compute_done.
Defined.

(** C9 (fails on the code). The string ["Xx"] names no card, yet the
    conversion returns the integer 0 for it and [EvalHand] goes on to
    return a rank for a hand that contains it. *)
Lemma unknown_card_yields_rank :
  ("Xx" ∉ card_names)
  ∧ cardsToInts ["Xx"] = [0]
  ∧ EvalHand hr_index ["Xx"; "2c"; "2d"; "2h"; "2s"; "3c"; "3d"] = Ok 74.
Proof.
  split; [compute_done|].
  split; reflexivity.
Qed.

(** ** Exhaustive enumeration *)

(** A loop over a generator whose body leaves the state alone only moves
    the buffer. *)
Lemma gen_loop_idle {S} (body : list Z → S → result S) (s : S) :
  (∀ buf, body buf s = Ok s) →
  ∀ c buf, gen_loop body c buf s = Ok (foldl copy buf c, s).
Proof.
  intros Hidle c. induction c as [|x c IH]; intros buf; cbn [gen_loop foldl].
  - by rewrite Hidle.
  - rewrite Hidle. cbn [mbind result_bind].
    case_bool_decide as Hc; [apply IH|].
    by subst c.
Qed.

(** In the exhaustive branch only the first opponent hand is played: the
    inner loop runs for it and leaves [loop2] false, and every later
    opponent hand passes without a trial. The sum and the count are those
    of the completions of the first opponent hand alone. *)
Lemma opponents_first_only
    (Generator : list Z → nat → list (list Z)) (hr : Z → Z)
    (hole given deck : list Z) (k : nat)
    (x : list Z) (c1 : list (list Z)) (oHole drawn : list Z) (acc : float * float) :
  opponents Generator hr hole given deck k (x :: c1) oHole (drawn, true, acc)
  = ('(drawn', acc') ←
       completions hr hole given (copy oHole x)
         (Generator (minus deck (copy oHole x)) k) drawn acc;
     Ok (foldl copy oHole (x :: c1), (drawn', false, acc'))).
Proof.
  unfold opponents. cbn [gen_loop foldl].
  destruct (completions _ _ _ _ _ _ _) as [[drawn' acc']|p];
    cbn [mbind result_bind]; [|done].
  case_bool_decide as Hc.
  - by apply gen_loop_idle.
  - by subst c1.
Qed.

(** C2 (fails on the code). With the hole cards Ah Ad and the board
    2c 3d 4h 5s, the specification's enumeration has 45540 trials (1035
    opponent hands, 44 completions each). [HandEquity] with [trials == 0]
    counts 44 of them, those of the first opponent hand: [loop2] is never
    set again once the first inner loop has ended. It returns the mean of
    these 44 shares, 1, and not the mean over all trials, which is below 1
    on this table. *)
Theorem HandEquity_exhaustive_plays_first_opponent_only (src : source) :
  let hole := cardsToInts ["Ah"; "Ad"] in
  let given := cardsToInts ["2c"; "3d"; "4h"; "5s"] in
  let deck := NewDeck (hole ++ given ++ [0]) in
  Z.of_nat (length (all_trials combinations deck 1)) = 45540
  ∧ opponents combinations hr_index hole given deck 1
      (combinations deck 2) [0; 0] ([0], true, (0, 0)%float)
    = Ok ([49; 52], ([52], false, (44, 44)%float))
  ∧ HandEquity combinations hr_index src ["Ah"; "Ad"] ["2c"; "3d"; "4h"; "5s"] 0
    = Ok 1%float
  ∧ ∃ mean, exhaustive_mean combinations hr_index hole given deck 1 = Ok mean
            ∧ (mean <? 1)%float = true.
Proof.
  cbv zeta. split_and!.
  - vm_compute. reflexivity.
  - vm_compute. reflexivity.
  - vm_compute. reflexivity.
  - eexists. split; [vm_compute; reflexivity | reflexivity].
Qed.

(** * Further properties of the code *)

(** ** The card table *)

Lemma CTOI_formula (i j : nat) (r s : ascii) :
  bytes ranks !! i = Some r →
  bytes suits !! j = Some s →
  CTOI_at (str2 r s) = 4 * Z.of_nat i + Z.of_nat j + 1.
Proof.
  intros Hr Hs. unfold ranks, suits in *. cbn [bytes String.list_ascii_of_string] in *.
  pick i Hr; pick j Hs; injection Hr as <-; injection Hs as <-; reflexivity.
Qed.

(** X1. [init] numbers the cards rank-major: the card made of the [i]-th
    rank byte and the [j]-th suit byte reads as [4 i + j + 1]. *)
Theorem CTOI_rank_major (i j : nat) (r s : ascii) :
  bytes ranks !! i = Some r →
  bytes suits !! j = Some s →
  CTOI_at (str2 r s) = 4 * Z.of_nat i + Z.of_nat j + 1.
Proof. apply CTOI_formula. Qed.

Lemma CTOI_rank_major_witness :
  CTOI_at (str2 "K" "h") = 4 * Z.of_nat 11 + Z.of_nat 2 + 1.
Proof. apply (CTOI_rank_major 11 2 "K" "h"); reflexivity. Defined.

Lemma NoDup_snd_inj {A B} (l : list (A * B)) (x1 x2 : A) (y : B) :
  NoDup l.*2 → (x1, y) ∈ l → (x2, y) ∈ l → x1 = x2.
Proof.
  intros Hnd H1 H2.
  apply list_elem_of_lookup in H1 as [i Hi], H2 as [j Hj].
  assert (i = j) as ->.
  { apply (NoDup_lookup l.*2 i j y Hnd); rewrite list_lookup_fmap.
    - by rewrite Hi.
    - by rewrite Hj. }
  congruence.
Qed.

Lemma CTOI_at_inj (c1 c2 : string) :
  c1 ∈ card_names → CTOI_at c1 = CTOI_at c2 → c1 = c2.
Proof.
  intros Hc1 Heq. unfold CTOI_at in Heq.
  destruct (CTOI_card_names c1 Hc1) as [k1 Hk1].
  rewrite Hk1 in Heq. cbn in Heq.
  pose proof (CTOI_Some c1 k1 Hk1) as [_ Hrange].
  destruct (CTOI !! c2) as [k2|] eqn:Hk2; cbn in Heq; [|lia]. subst k2.
  apply elem_of_map_to_list in Hk1, Hk2.
  assert (NoDup (map_to_list CTOI).*2) as Hnd by compute_done.
  exact (NoDup_snd_inj _ c1 c2 k1 Hnd Hk1 Hk2).
Qed.

(** X2. No two card strings share an integer: a string that reads as the
    integer of a card name is that card name. *)
Theorem CTOI_at_injective (c1 c2 : string) :
  c1 ∈ card_names → CTOI_at c1 = CTOI_at c2 → c1 = c2.
Proof. apply CTOI_at_inj. Qed.

Lemma CTOI_at_injective_witness : "Td" = str2 "T" "d".
Proof.
  apply (CTOI_at_injective "Td" (str2 "T" "d")); [compute_done | reflexivity].
Defined.

(** X3. Every integer from 1 to 52 is the integer of a card name. *)
Theorem CTOI_at_onto (k : Z) :
  1 ≤ k ≤ 52 → ∃ c, c ∈ card_names ∧ CTOI_at c = k.
Proof.
  intros Hk.
  assert (Forall (λ k, Exists (λ c, CTOI_at c = k) card_names)
                 (Z.of_nat <$> seq 1 52)) as Hall by compute_done.
  rewrite Forall_forall in Hall.
  assert (k ∈ Z.of_nat <$> seq 1 52) as Hin.
  { apply list_elem_of_fmap. exists (Z.to_nat k). split; [lia|].
    apply elem_of_seq. lia. }
  apply Hall, Exists_exists in Hin as (c & Hc & Hck). eauto.
Qed.

Lemma CTOI_at_onto_witness : ∃ c, c ∈ card_names ∧ CTOI_at c = 52.
Proof. apply (CTOI_at_onto 52). lia. Defined.

(** ** Set subtraction and decks *)

Lemma existsb_eqb_elem_of (v : Z) (b : list Z) :
  existsb (Z.eqb v) b = true ↔ v ∈ b.
Proof.
  rewrite existsb_exists. split.
  - intros (w & Hw & Heq). apply Z.eqb_eq in Heq. subst w.
    by apply list_elem_of_In.
  - intros Hv. exists v. split; [by apply list_elem_of_In | apply Z.eqb_refl].
Qed.

(** The loop of [minus] is a stable filter. *)
Lemma minus_filter (a b : list Z) : minus a b = filter (λ v, v ∉ b) a.
Proof.
  unfold minus.
  enough (∀ c, foldl (λ c v, if existsb (Z.eqb v) b then c else c ++ [v]) c a
               = c ++ filter (λ v, v ∉ b) a) as Hgen by apply (Hgen []).
  induction a as [|v a IH]; intros c; cbn [foldl].
  { by rewrite filter_nil, app_nil_r. }
  rewrite IH. destruct (existsb (Z.eqb v) b) eqn:Hv.
  - apply existsb_eqb_elem_of in Hv. by rewrite filter_cons_False by tauto.
  - rewrite filter_cons_True.
    + by rewrite <- app_assoc.
    + intros Hin. apply existsb_eqb_elem_of in Hin. congruence.
Qed.

(** X4. [minus a b] holds exactly the elements of [a] that no element of
    [b] equals. *)
Theorem minus_elem_of (a b : list Z) (v : Z) :
  v ∈ minus a b ↔ v ∈ a ∧ v ∉ b.
Proof. rewrite minus_filter, list_elem_of_filter. tauto. Qed.

(** X5. [minus] keeps the order of [a] and adds no repetition: the result
    is a sublist of [a], without duplicates when [a] has none. *)
Theorem minus_sublist (a b : list Z) :
  sublist (minus a b) a ∧ (NoDup a → NoDup (minus a b)).
Proof.
  rewrite minus_filter. split.
  - apply sublist_filter.
  - apply NoDup_filter.
Qed.

Lemma deck_52 :
  map (fun i => u32 (Z.of_nat i + 1)) (seq 0 52) = Z.of_nat <$> seq 1 52.
Proof. reflexivity. Qed.

Lemma NewDeck_filter (missing : list Z) :
  NewDeck missing = filter (λ v, v ∉ missing) (Z.of_nat <$> seq 1 52).
Proof.
  unfold NewDeck. rewrite deck_52. case_decide as Hlen.
  - apply minus_filter.
  - destruct missing; [|cbn in Hlen; lia].
    generalize (Z.of_nat <$> seq 1 52). intros l.
    induction l as [|v l IH]; [done|].
    rewrite filter_cons_True by apply not_elem_of_nil. by f_equal.
Qed.

Lemma elem_of_deck_52 (c : Z) : c ∈ Z.of_nat <$> seq 1 52 ↔ 1 ≤ c ≤ 52.
Proof.
  rewrite list_elem_of_fmap. split.
  - intros (n & -> & Hn). apply elem_of_seq in Hn. lia.
  - intros Hc. exists (Z.to_nat c). split; [lia|]. apply elem_of_seq. lia.
Qed.

Lemma NewDeck_NoDup (missing : list Z) : NoDup (NewDeck missing).
Proof.
  rewrite NewDeck_filter. apply NoDup_filter. apply (NoDup_fmap_2 _). apply NoDup_seq.
Qed.

Lemma NewDeck_elem_of (missing : list Z) (c : Z) :
  c ∈ NewDeck missing ↔ 1 ≤ c ≤ 52 ∧ c ∉ missing.
Proof. rewrite NewDeck_filter, list_elem_of_filter, elem_of_deck_52. tauto. Qed.

(** X6. A deck holds each card from 1 to 52 that is not among the missing
    ones, once, and nothing else; missing values that are no cards (such
    as the 0 of an unknown card string) change nothing. *)
Theorem NewDeck_cards (missing : list Z) :
  NoDup (NewDeck missing)
  ∧ ∀ c, c ∈ NewDeck missing ↔ 1 ≤ c ≤ 52 ∧ c ∉ missing.
Proof. split; [apply NewDeck_NoDup | apply NewDeck_elem_of]. Qed.

(** X7. Removing distinct cards shortens the deck by their number. *)
Theorem NewDeck_length (missing : list Z) :
  NoDup missing →
  Forall (λ c, 1 ≤ c ≤ 52) missing →
  (length (NewDeck missing) = 52 - length missing)%nat.
Proof.
  intros Hnd Hcards. rewrite NewDeck_filter.
  pose proof (filter_app_complement (λ v, v ∉ missing) (Z.of_nat <$> seq 1 52)) as Hsum.
  apply Permutation_length in Hsum.
  rewrite length_app, length_fmap, length_seq in Hsum.
  assert (filter (λ x : Z, ¬ (x ∉ missing)) (Z.of_nat <$> seq 1 52) ≡ₚ missing) as Hp.
  { apply NoDup_Permutation; [|done|].
    - apply NoDup_filter, (NoDup_fmap_2 _), NoDup_seq.
    - intros c. rewrite list_elem_of_filter, elem_of_deck_52.
      rewrite Forall_forall in Hcards. split.
      + intros [Hc _]. by apply dec_stable.
      + intros Hc. split; [tauto | by apply Hcards]. }
  rewrite Hp in Hsum. lia.
Qed.

Lemma NewDeck_length_witness :
  length (NewDeck [51; 50; 1; 6; 11]) = (52 - length [51; 50; 1; 6; 11]%Z)%nat.
Proof.
  apply (NewDeck_length [51; 50; 1; 6; 11]).
  - compute_done.
  - compute_done.
Defined.

(** ** Hand distributions *)

(** X8. A token of fewer than two bytes makes [Strs] panic on the first
    byte it lacks. *)
Theorem Strs_short_token (hd : HandDist) :
  (length (bytes (Dist hd)) < 2)%nat →
  Strs hd = Panic (IndexOutOfRange (Z.of_nat (length (bytes (Dist hd))))
                                   (Z.of_nat (length (bytes (Dist hd))))).
Proof.
  destruct hd as [[|a [|b d]]]; cbn [Dist bytes String.list_ascii_of_string length];
    [reflexivity | reflexivity | lia].
Qed.

Lemma Strs_short_token_witness :
  Strs {| Dist := "A" |} = Panic (IndexOutOfRange 1 1).
Proof. apply (Strs_short_token {| Dist := "A" |}). cbn. lia. Defined.

(** X9. A token of exactly two bytes is expanded as a pair of its first
    byte: the second byte reaches no hand, so ["54"] yields the six pairs
    of fives and not the sixteen hands of a five and a four. *)
Theorem Strs_two_bytes_second_ignored (a b : ascii) :
  Strs {| Dist := str2 a b |} = Strs {| Dist := str2 a a |}.
Proof. by rewrite !Strs_pair. Qed.

Lemma CTOI_at_card (r s : ascii) :
  r ∈ bytes ranks → s ∈ bytes suits → 1 ≤ CTOI_at (str2 r s) ≤ 52.
Proof.
  intros Hr Hs.
  assert (str2 r s ∈ card_names) as Hc.
  { unfold card_names. apply list_elem_of_bind. exists r. split; [|done].
    apply list_elem_of_bind. exists s. split; [|done].
    by apply list_elem_of_singleton. }
  destruct (CTOI_card_names _ Hc) as [k Hk].
  unfold CTOI_at. rewrite Hk. cbn. by apply CTOI_Some in Hk as [_ ?].
Qed.

Lemma elem_of_suits_c : "c"%char ∈ bytes suits. Proof. compute_done. Qed.
Lemma elem_of_suits_d : "d"%char ∈ bytes suits. Proof. compute_done. Qed.
Lemma elem_of_suits_h : "h"%char ∈ bytes suits. Proof. compute_done. Qed.
Lemma elem_of_suits_s : "s"%char ∈ bytes suits. Proof. compute_done. Qed.

(** The three shapes of a token of at least two bytes. *)
Lemma Strs_cases (a b : ascii) (more : string) (hands : list (list string)) :
  Strs {| Dist := String a (String b more) |} = Ok hands →
  hands = [[str2 a "c"; str2 a "d"]; [str2 a "c"; str2 a "h"];
           [str2 a "c"; str2 a "s"]; [str2 a "d"; str2 a "h"];
           [str2 a "d"; str2 a "s"]; [str2 a "h"; str2 a "s"]]
  ∨ hands = [[str2 a "c"; str2 b "d"]; [str2 a "c"; str2 b "h"];
             [str2 a "c"; str2 b "s"]; [str2 a "d"; str2 b "c"];
             [str2 a "d"; str2 b "h"]; [str2 a "d"; str2 b "s"];
             [str2 a "h"; str2 b "c"]; [str2 a "h"; str2 b "d"];
             [str2 a "h"; str2 b "s"]; [str2 a "s"; str2 b "c"];
             [str2 a "s"; str2 b "d"]; [str2 a "s"; str2 b "h"]]
  ∨ hands = [[str2 a "c"; str2 b "c"]; [str2 a "d"; str2 b "d"];
             [str2 a "h"; str2 b "h"]; [str2 a "s"; str2 b "s"]].
Proof.
  destruct more as [|c more].
  - change (String a (String b EmptyString)) with (str2 a b).
    rewrite Strs_pair. intros [= <-]. by left.
  - destruct (decide (c = "o"%char)) as [->|Hc].
    + rewrite Strs_offsuit. intros [= <-]. right. by left.
    + rewrite Strs_suited by done. intros [= <-]. right. by right.
Qed.

(** X10. For a token that starts with two rank bytes, every hand of [Ints]
    is made of two cards of the deck, integers from 1 to 52. *)
Theorem Ints_cards (a b : ascii) (more : string) (hands : list (list Z)) :
  a ∈ bytes ranks → b ∈ bytes ranks →
  Ints {| Dist := String a (String b more) |} = Ok hands →
  Forall (λ h, length h = 2%nat ∧ Forall (λ c, 1 ≤ c ≤ 52) h) hands.
Proof.
  intros Ha Hb. unfold Ints. intros HI.
  apply bind_Ok in HI as (shands & Hs & Heq). injection Heq as <-.
  pose proof (CTOI_at_card a _ Ha elem_of_suits_c).
  pose proof (CTOI_at_card a _ Ha elem_of_suits_d).
  pose proof (CTOI_at_card a _ Ha elem_of_suits_h).
  pose proof (CTOI_at_card a _ Ha elem_of_suits_s).
  pose proof (CTOI_at_card b _ Hb elem_of_suits_c).
  pose proof (CTOI_at_card b _ Hb elem_of_suits_d).
  pose proof (CTOI_at_card b _ Hb elem_of_suits_h).
  pose proof (CTOI_at_card b _ Hb elem_of_suits_s).
  apply Strs_cases in Hs as [ -> | [ -> | -> ] ]; cbn [map cardsToInts];
    repeat (apply Forall_cons_2;
            [split; [reflexivity|];
             repeat (apply Forall_cons_2; [assumption|]); apply Forall_nil_2 |]);
    apply Forall_nil_2.
Qed.

Lemma Ints_cards_witness :
  Forall (λ h, length h = 2%nat ∧ Forall (λ c, 1 ≤ c ≤ 52) h)
         [[45; 41]; [46; 42]; [47; 43]; [48; 44]].
Proof.
  apply (Ints_cards "K" "Q" "s"); [compute_done | compute_done | reflexivity].
Defined.

Lemma card_rank_suit (i k : nat) (r s : ascii) :
  bytes ranks !! i = Some r →
  bytes suits !! k = Some s →
  rank_of (CTOI_at (str2 r s)) = Z.of_nat i
  ∧ suit_of (CTOI_at (str2 r s)) = Z.of_nat k.
Proof.
  intros Hr Hs. rewrite (CTOI_formula i k r s Hr Hs).
  apply lookup_lt_Some in Hs. cbn in Hs.
  unfold rank_of, suit_of.
  replace (4 * Z.of_nat i + Z.of_nat k + 1 - 1)
    with (Z.of_nat k + Z.of_nat i * 4) by lia.
  rewrite Z.div_add, Z.mod_add by lia.
  rewrite Z.div_small, Z.mod_small by lia. lia.
Qed.

Ltac hands_by_card :=
  repeat (apply Forall_cons_2;
          [eexists _, _; split; [reflexivity|];
           split; [assumption|]; split; [assumption|];
           repeat match goal with
                  | H : suit_of ?x = _ |- context [suit_of ?x] => rewrite H
                  end;
           split; intros ?; first [assumption | congruence | lia] |]);
  apply Forall_nil_2.

(** X11. For a three-byte token made of the [i]-th and the [j]-th rank
    byte, every hand of [Ints] holds a card of rank [i] followed by a card
    of rank [j]; the two cards share their suit exactly when the suffix is
    not ['o']. *)
Theorem Ints_ranks_suits (i j : nat) (a b c : ascii) (hands : list (list Z)) :
  bytes ranks !! i = Some a →
  bytes ranks !! j = Some b →
  Ints {| Dist := str3 a b c |} = Ok hands →
  Forall (λ h, ∃ x y, h = [x; y]
               ∧ rank_of x = Z.of_nat i ∧ rank_of y = Z.of_nat j
               ∧ (suit_of x = suit_of y ↔ c ≠ "o"%char)) hands.
Proof.
  intros Ha Hb HI.
  destruct (card_rank_suit i 0 a "c" Ha eq_refl) as [Rac Sac].
  destruct (card_rank_suit i 1 a "d" Ha eq_refl) as [Rad Sad].
  destruct (card_rank_suit i 2 a "h" Ha eq_refl) as [Rah Sah].
  destruct (card_rank_suit i 3 a "s" Ha eq_refl) as [Ras Sas].
  destruct (card_rank_suit j 0 b "c" Hb eq_refl) as [Rbc Sbc].
  destruct (card_rank_suit j 1 b "d" Hb eq_refl) as [Rbd Sbd].
  destruct (card_rank_suit j 2 b "h" Hb eq_refl) as [Rbh Sbh].
  destruct (card_rank_suit j 3 b "s" Hb eq_refl) as [Rbs Sbs].
  unfold Ints, str3 in HI.
  destruct (decide (c = "o"%char)) as [->|Hc].
  - rewrite Strs_offsuit in HI. injection HI as <-. cbn [map cardsToInts].
    hands_by_card.
  - rewrite Strs_suited in HI by done. injection HI as <-. cbn [map cardsToInts].
    hands_by_card.
Qed.

Lemma Ints_ranks_suits_witness :
  Forall (λ h, ∃ x y, h = [x; y]
               ∧ rank_of x = Z.of_nat 12 ∧ rank_of y = Z.of_nat 11
               ∧ (suit_of x = suit_of y ↔ "s"%char ≠ "o"%char))
         [[49; 45]; [50; 46]; [51; 47]; [52; 48]].
Proof.
  apply (Ints_ranks_suits 12 11 "A" "K" "s"); reflexivity.
Defined.

(** ** Tokens made from rank numbers *)

Lemma index_None {A} (s : list A) (i : Z) :
  i < 0 ∨ Z.of_nat (length s) ≤ i →
  index s i = Panic (IndexOutOfRange i (Z.of_nat (length s))).
Proof.
  intros Hi. unfold index. case_decide; [|done].
  rewrite lookup_ge_None_2; [done | lia].
Qed.

Lemma index_ranks (r : Z) :
  2 ≤ r ≤ 14 → ∃ a, index (bytes ranks) (int64 (r - 2)) = Ok a.
Proof.
  intros Hr. rewrite int64_small by lia.
  destruct (lookup_lt_is_Some_2 (bytes ranks) (Z.to_nat (r - 2))) as [a Ha].
  { cbn. lia. }
  exists a. rewrite <- (Z2Nat.id (r - 2)) by lia. by apply index_Ok.
Qed.

Lemma index_ranks_None (r : Z) :
  - 2 ^ 63 ≤ r < 2 ^ 63 → ¬ (2 ≤ r ≤ 14) →
  ∃ p, index (bytes ranks) (int64 (r - 2)) = Panic p.
Proof.
  intros Hint Hr. eexists. apply index_None.
  change (Z.of_nat (length (bytes ranks))) with 13.
  destruct (decide (- 2 ^ 63 ≤ r - 2)) as [Hlo|Hlo].
  - rewrite int64_small by lia. lia.
  - right. unfold int64.
    replace (r - 2 + 2 ^ 63) with (r - 2 + 2 ^ 63 + 2 ^ 64 + (-1) * 2 ^ 64) by lia.
    rewrite Z.mod_add by lia. rewrite Z.mod_small by lia. lia.
Qed.

(** X12. For rank numbers from 2 to 14, [NewRRSDist] returns a token that
    [Strs] expands to 6 hands when the ranks are equal, else to 4 hands
    when [suit] is positive, else to 12 hands. *)
Theorem NewRRSDist_Strs (r1 r2 suit : Z) :
  2 ≤ r1 ≤ 14 → 2 ≤ r2 ≤ 14 →
  ∃ hd hands,
    NewRRSDist r1 r2 suit = Ok hd ∧ Strs hd = Ok hands
    ∧ length hands = if decide (r1 = r2) then 6%nat
                     else if decide (0 < suit) then 4%nat else 12%nat.
Proof.
  intros H1 H2. unfold NewRRSDist.
  destruct (index_ranks r1 H1) as [a ->], (index_ranks r2 H2) as [b ->].
  cbn [mbind result_bind].
  destruct (decide (r1 = r2)); [|destruct (decide (0 < suit))].
  - eexists _, _. split; [reflexivity|]. by rewrite Strs_pair.
  - eexists _, _. split; [reflexivity|]. by rewrite Strs_suited.
  - eexists _, _. split; [reflexivity|]. by rewrite Strs_offsuit.
Qed.

Lemma NewRRSDist_Strs_witness :
  ∃ hd hands,
    NewRRSDist 14 13 1 = Ok hd ∧ Strs hd = Ok hands
    ∧ length hands = if decide (14 = 13) then 6%nat
                     else if decide (0 < 1) then 4%nat else 12%nat.
Proof. apply (NewRRSDist_Strs 14 13 1); lia. Defined.

(** X13. A rank number outside 2 to 14 makes [NewRRSDist] panic: it
    indexes the rank string out of its range. *)
Theorem NewRRSDist_out_of_range (r1 r2 suit : Z) :
  - 2 ^ 63 ≤ r1 < 2 ^ 63 → - 2 ^ 63 ≤ r2 < 2 ^ 63 →
  ¬ (2 ≤ r1 ≤ 14) ∨ ¬ (2 ≤ r2 ≤ 14) →
  ∃ p, NewRRSDist r1 r2 suit = Panic p.
Proof.
  intros Hi1 Hi2 Hout. unfold NewRRSDist.
  destruct (decide (2 ≤ r1 ≤ 14)) as [H1|H1].
  - destruct (index_ranks r1 H1) as [a ->]. cbn [mbind result_bind].
    destruct Hout as [?|H2]; [done|].
    destruct (index_ranks_None r2 Hi2 H2) as [p ->]. by exists p.
  - destruct (index_ranks_None r1 Hi1 H1) as [p ->]. by exists p.
Qed.

Lemma NewRRSDist_out_of_range_witness : ∃ p, NewRRSDist 1 14 0 = Panic p.
Proof. apply (NewRRSDist_out_of_range 1 14 0); lia. Defined.

(** ** The walk through the table *)

Ltac walk hr :=
  repeat (match goal with
          | |- context [hr_at hr ?i] => destruct (hr_at hr i); simpl
          end; eauto).

(** X14. With fewer than seven cards [EvalHand] returns no rank, whatever
    the table holds: the walk panics, at the latest on the first card that
    is missing. *)
Theorem EvalHand_needs_seven (hr : Z → Z) (cards : list string) :
  (length cards < 7)%nat → ∃ p, EvalHand hr cards = Panic p.
Proof.
  intros Hlen. unfold EvalHand, cardsToInts.
  rewrite <- (length_map CTOI_at) in Hlen.
  revert Hlen. generalize (map CTOI_at cards). intros h Hlen.
  destruct h as [|c0 [|c1 [|c2 [|c3 [|c4 [|c5 [|c6 h]]]]]]];
    try (cbn in Hlen; lia); unfold index; simpl; eauto; walk hr.
Qed.

Lemma EvalHand_needs_seven_witness :
  ∃ p, EvalHand hr_index ["2c"; "2d"; "2h"; "2s"; "3c"] = Panic p.
Proof. apply (EvalHand_needs_seven hr_index). cbn. lia. Defined.

(** X15. [EvalHand] reads seven cards and no more: cards after the
    seventh do not change its result. *)
Theorem EvalHand_ignores_eighth (hr : Z → Z) (cards more : list string) :
  length cards = 7%nat → EvalHand hr (cards ++ more) = EvalHand hr cards.
Proof.
  intros Hlen. unfold EvalHand, cardsToInts. rewrite map_app.
  rewrite <- (length_map CTOI_at) in Hlen.
  revert Hlen. generalize (map CTOI_at cards) (map CTOI_at more).
  intros h m Hlen.
  destruct h as [|c0 [|c1 [|c2 [|c3 [|c4 [|c5 [|c6 [|]]]]]]]];
    try discriminate Hlen.
  reflexivity.
Qed.

Lemma EvalHand_ignores_eighth_witness :
  EvalHand hr_index (["2c"; "2d"; "2h"; "2s"; "3c"; "3d"; "3h"] ++ ["As"])
  = EvalHand hr_index ["2c"; "2d"; "2h"; "2s"; "3c"; "3d"; "3h"].
Proof. apply (EvalHand_ignores_eighth hr_index). reflexivity. Defined.

(** X16. [SplitRank] cuts a rank into a category and a rank within the
    category, below 4096, from which the rank is recovered; ranks compare
    as these pairs do, category first. *)
Theorem SplitRank_order (r1 r2 : Z) :
  let '(c1, i1) := SplitRank r1 in
  let '(c2, i2) := SplitRank r2 in
  r1 = c1 * 4096 + i1 ∧ 0 ≤ i1 < 4096
  ∧ (r1 < r2 ↔ c1 < c2 ∨ (c1 = c2 ∧ i1 < i2)).
Proof.
  unfold SplitRank.
  change 4095 with (Z.ones 12).
  rewrite !Z.land_ones, !Z.shiftr_div_pow2 by lia.
  change (2 ^ 12) with 4096.
  pose proof (Z.div_mod r1 4096). pose proof (Z.div_mod r2 4096).
  pose proof (Z.mod_pos_bound r1 4096). pose proof (Z.mod_pos_bound r2 4096).
  lia.
Qed.

(** ** The comparator *)

(** X17. With one hand or with more than two hands, [evalHands] splits
    the pot: every hand of the best rank receives [1 / W], where [W]
    counts the hands of that rank, and every other hand receives 0. *)
Theorem evalHands_split_pot
    (hr : Z → Z) (board : list Z) (hands : list (list Z)) (b : Z) (vals : list Z) :
  length hands ≠ 2%nat →
  hands ≠ [] →
  Z.of_nat (length hands) < 2 ^ 63 →
  evalBoard hr board = Ok b →
  for_each (evalHand hr b) hands = Ok vals →
  ∃ (max : Z) (W : nat),
    max ∈ vals ∧ Forall (λ v, v ≤ max) vals
    ∧ W = occurrences max vals ∧ (1 ≤ W ≤ length hands)%nat
    ∧ evalHands hr board hands
      = Ok (map (λ v, if decide (v = max)
                      then (1 / float64_of_int (Z.of_nat W))%float
                      else 0%float) vals).
Proof. apply evalHands_general_path. Qed.

Lemma evalHands_split_pot_witness :
  ∃ (max : Z) (W : nat),
    max ∈ [85; 81; 85] ∧ Forall (λ v, v ≤ max) [85; 81; 85]
    ∧ W = occurrences max [85; 81; 85] ∧ (1 ≤ W ≤ length [[8; 9]; [6; 7]; [7; 10]])%nat
    ∧ evalHands hr_index [1; 2; 3; 4; 5] [[8; 9]; [6; 7]; [7; 10]]
      = Ok (map (λ v, if decide (v = max)
                      then (1 / float64_of_int (Z.of_nat W))%float
                      else 0%float) [85; 81; 85]).
Proof.
  apply (evalHands_split_pot hr_index [1; 2; 3; 4; 5] [[8; 9]; [6; 7]; [7; 10]] 68);
    [cbn; lia | discriminate | cbn; lia | reflexivity | reflexivity].
Defined.

(** X18. When [evalHands] returns, it returns one share per hand. *)
Theorem evalHands_length
    (hr : Z → Z) (board : list Z) (hands : list (list Z)) (shares : list float) :
  evalHands hr board hands = Ok shares → length shares = length hands.
Proof.
  unfold evalHands. intros He.
  apply bind_Ok in He as (b & _ & He).
  destruct (decide (length hands = 2%nat)) as [H2|_].
  - rewrite H2.
    apply bind_Ok in He as (h0 & _ & He). apply bind_Ok in He as (r0 & _ & He).
    apply bind_Ok in He as (h1 & _ & He). apply bind_Ok in He as (r1 & _ & He).
    cbv zeta in He. repeat case_decide; by injection He as <-.
  - apply bind_Ok in He as (vals & Hvals & He).
    apply bind_Ok in He as (v0 & _ & He).
    destruct (count_winners v0 (drop 1 vals)) as [winners max].
    injection He as <-. rewrite length_map.
    by eapply for_each_length.
Qed.

Lemma evalHands_length_witness :
  length [1; 0]%float = length [[6; 7]; [8; 9]].
Proof.
  apply (evalHands_length hr_index [1; 2; 3; 4; 5] [[6; 7]; [8; 9]]). reflexivity.
Defined.

(** ** Intersection of hands *)

Lemma same_hand_two (x y u v : Z) :
  same_hand [x; y] [u; v]
  = Ok (bool_decide ((x = u ∧ y = v) ∨ (x = v ∧ y = u))).
Proof.
  unfold same_hand, index. simpl.
  repeat (case_decide; simpl); repeat (case_bool_decide; simpl);
    try reflexivity; exfalso; lia.
Qed.

Lemma Permutation_two (x y u v : Z) :
  [x; y] ≡ₚ [u; v] ↔ (x = u ∧ y = v) ∨ (x = v ∧ y = u).
Proof.
  split.
  - intros Hp. apply Permutation_length_2_inv in Hp as [[= <- <-]|[= <- <-]]; tauto.
  - intros [[-> ->]|[-> ->]]; [done | apply Permutation_swap].
Qed.

Lemma matched_spec (v : list Z) (b : list (list Z)) :
  length v = 2%nat → Forall (λ w, length w = 2%nat) b →
  ∃ m : bool, matched v b = Ok m ∧ (m = true ↔ ∃ w, w ∈ b ∧ v ≡ₚ w).
Proof.
  intros Hv Hb. destruct v as [|x [|y [|]]]; try discriminate Hv. clear Hv.
  induction Hb as [|w b Hw _ IH].
  { exists false. split; [done|]. split; [done|].
    intros (w & Hw & _). by apply elem_of_nil in Hw. }
  destruct w as [|u [|t [|]]]; try discriminate Hw.
  cbn [matched]. rewrite same_hand_two. cbn [mbind result_bind].
  case_bool_decide as Hm.
  - exists true. split; [done|]. split; [|done]. intros _.
    exists [u; t]. split; [apply list_elem_of_here | by apply Permutation_two].
  - destruct IH as (m & -> & Hiff). exists m. split; [done|].
    rewrite Hiff. split.
    + intros (w & Hin & Hp). exists w. split; [by apply list_elem_of_further | done].
    + intros (w & Hin & Hp). apply elem_of_cons in Hin as [->|Hin]; [|eauto].
      by apply Permutation_two in Hp.
Qed.

(** X19. On hands of two cards [intersect] does not panic; it returns, in
    the order of [a], the hands of [a] that some hand of [b] equals in
    either card order. *)
Theorem intersect_two_card_hands (a b : list (list Z)) :
  Forall (λ v, length v = 2%nat) a →
  Forall (λ w, length w = 2%nat) b →
  ∃ c, intersect a b = Ok c ∧ sublist c a
       ∧ ∀ v, v ∈ c ↔ v ∈ a ∧ ∃ w, w ∈ b ∧ v ≡ₚ w.
Proof.
  intros Ha Hb. induction Ha as [|v a Hv _ IH].
  { exists []. split; [done|]. split; [done|].
    intros v. split; [intros Hin|intros [Hin _]]; by apply elem_of_nil in Hin. }
  destruct IH as (c & Hc & Hsub & Hiff).
  destruct (matched_spec v b Hv Hb) as (m & Hm & Hmiff).
  cbn [intersect]. rewrite Hm, Hc. cbn [mbind result_bind].
  destruct m.
  - exists (v :: c). split; [done|]. split; [by apply sublist_skip|].
    intros v'. rewrite !elem_of_cons, Hiff. split.
    + intros [->|[Hin Hex]]; [|tauto]. split; [by left|]. by apply Hmiff.
    + intros [[->|Hin] Hex]; [by left | right; tauto].
  - exists c. split; [done|]. split; [by apply sublist_cons|].
    intros v'. rewrite elem_of_cons, Hiff. split; [tauto|].
    intros [[->|Hin] Hex]; [|tauto].
    apply Hmiff in Hex. discriminate Hex.
Qed.

Lemma intersect_two_card_hands_witness :
  ∃ c, intersect [[1; 2]; [3; 4]] [[4; 3]; [5; 6]] = Ok c
       ∧ sublist c [[1; 2]; [3; 4]]
       ∧ ∀ v, v ∈ c ↔ v ∈ [[1; 2]; [3; 4]]
                       ∧ ∃ w, w ∈ [[4; 3]; [5; 6]] ∧ v ≡ₚ w.
Proof.
  apply (intersect_two_card_hands [[1; 2]; [3; 4]] [[4; 3]; [5; 6]]);
    repeat constructor.
Defined.

(** ** The hole-card estimator without cards left *)

Lemma intersect_nil_r (a : list (list Z)) : intersect a [] = Ok [].
Proof. induction a as [|v a IH]; [done|]. cbn [intersect matched]. by rewrite IH. Qed.

Lemma comb_Count_small (n : nat) : (n < 2)%nat → comb_Count n 2 = 0%nat.
Proof. destruct n as [|[|n]]; [done | done | lia]. Qed.

(** X20. When the visible cards leave fewer than two cards in the deck,
    [PHole] reports nothing: it divides zero hands by zero hands and
    returns the float NaN. *)
Theorem PHole_no_cards_left
    (Generator : list Z → nat → list (list Z))
    (scards : list string) (hd : HandDist) :
  (length (NewDeck (cardsToInts scards)) < 2)%nat →
  (2 ≤ length (bytes (Dist hd)))%nat →
  PHole Generator scards hd = Ok nan.
Proof.
  intros Hdeck Htok. unfold PHole.
  rewrite (comb_Count_small _ Hdeck). cbn [replicate PHole_fill seq foldl].
  destruct (Ints_head hd Htok) as (x & y & rest & ->).
  cbn [mbind result_bind]. rewrite intersect_nil_r. reflexivity.
Qed.

Lemma PHole_no_cards_left_witness :
  PHole combinations (take 51 card_names) {| Dist := "AA" |} = Ok nan.
Proof.
  apply (PHole_no_cards_left combinations (take 51 card_names) {| Dist := "AA" |}).
  - vm_compute. lia.
  - vm_compute. lia.
Defined.

(** ** Drawing from a lottery *)

Lemma Play_cases (dist : list (string * float)) (draw : float) :
  Play (NewLottery dist) draw
  = match List.find (λ e, (draw <? e.1)%float)
                    (zip (probs (NewLottery dist)) (prizes (NewLottery dist))) with
    | Some e => Ok e.2
    | None => match last (prizes (NewLottery dist)) with
              | Some label => Ok label
              | None => Panic (IndexOutOfRange (-1) 0)
              end
    end.
Proof.
  exact (Play_from_spec (NewLottery dist) draw [] (probs (NewLottery dist))
           (prizes (NewLottery dist)) eq_refl (NewLottery_lengths dist)).
Qed.

Lemma elem_of_zip_snd {A B} (x : A) (y : B) (xs : list A) (ys : list B) :
  (x, y) ∈ zip xs ys → y ∈ ys.
Proof.
  revert ys. induction xs as [|x' xs IH]; intros [|y' ys]; cbn;
    try (intros Hin; by apply elem_of_nil in Hin).
  intros Hin. apply elem_of_cons in Hin as [[= -> ->]|Hin].
  - apply list_elem_of_here.
  - apply list_elem_of_further. by apply IH.
Qed.

(** X21. A label that [Play] returns is the label of an entry of non-zero
    weight: an entry of weight zero is never drawn. *)
Theorem Play_label_has_weight
    (dist : list (string * float)) (draw : float) (label : string) :
  Play (NewLottery dist) draw = Ok label →
  ∃ w, (label, w) ∈ dist ∧ (w =? 0)%float = false.
Proof.
  intros Hplay.
  assert (label ∈ prizes (NewLottery dist)) as Hin.
  { rewrite Play_cases in Hplay.
    destruct (List.find _ _) as [[p q]|] eqn:Hfind.
    - injection Hplay as <-. apply find_some in Hfind as [Hin _].
      apply list_elem_of_In in Hin. by eapply elem_of_zip_snd.
    - destruct (last _) as [l|] eqn:Hlast; [|done]. injection Hplay as <-.
      apply last_Some in Hlast as [l' ->].
      apply elem_of_app. right. apply list_elem_of_here. }
  rewrite NewLottery_kept in Hin. cbn [prizes] in Hin.
  apply list_elem_of_fmap in Hin as ([l w] & -> & Hin).
  apply list_elem_of_filter in Hin as [Hw Hin]. by exists w.
Qed.

Lemma Play_label_has_weight_witness :
  ∃ w, ("call", w) ∈ [("fold", 0.25%float); ("check", 0%float); ("call", 0.5%float)]
       ∧ (w =? 0)%float = false.
Proof.
  apply (Play_label_has_weight
           [("fold", 0.25%float); ("check", 0%float); ("call", 0.5%float)]
           0.5%float "call").
  reflexivity.
Defined.

(** X22. When at least one entry has a non-zero weight, [Play] returns a
    label for every draw: it does not panic. *)
Theorem Play_returns_label (dist : list (string * float)) (draw : float) :
  Exists (λ kv, (kv.2 =? 0)%float = false) dist →
  ∃ label, Play (NewLottery dist) draw = Ok label.
Proof.
  intros Hex. rewrite Play_cases.
  destruct (List.find _ _) as [e|]; [eauto|].
  rewrite NewLottery_kept. cbn [prizes].
  apply Exists_exists in Hex as (kv & Hin & Hw).
  assert (kv ∈ kept dist) as Hk by (by apply list_elem_of_filter).
  destruct (kept dist) as [|kv' ks _] using rev_ind; [by apply elem_of_nil in Hk|].
  rewrite (fmap_app fst). cbn [fmap list_fmap]. rewrite last_snoc. eauto.
Qed.

Lemma Play_returns_label_witness :
  ∃ label, Play (NewLottery [("fold", 0%float); ("call", 0.5%float)]) 0.75%float
           = Ok label.
Proof.
  apply (Play_returns_label [("fold", 0%float); ("call", 0.5%float)] 0.75%float).
  apply Exists_cons_tl, Exists_cons_hd. reflexivity.
Defined.

(** ** Shuffling *)

Lemma insert_Permutation_head (t : list Z) (j : nat) (h y : Z) :
  t !! j = Some y → y :: <[j := h]> t ≡ₚ h :: t.
Proof.
  revert j. induction t as [|z t IH]; intros [|j] Hj; try discriminate Hj.
  - injection Hj as ->. cbn. apply Permutation_swap.
  - cbn in Hj. cbn [insert list_insert].
    transitivity (z :: y :: <[j := h]> t); [apply Permutation_swap|].
    transitivity (z :: h :: t); [|apply Permutation_swap].
    constructor. by apply IH.
Qed.

Lemma swap_Permutation (a : list Z) (j i : nat) : swap a j i ≡ₚ a.
Proof.
  unfold swap.
  destruct (a !! i) as [ai|] eqn:Hi; [|done].
  destruct (a !! j) as [aj|] eqn:Hj; [|done].
  revert i j Hi Hj. induction a as [|h t IH]; intros [|i] [|j] Hi Hj;
    try discriminate Hi; try discriminate Hj; cbn in Hi, Hj; cbn [insert list_insert].
  - by simplify_eq.
  - simplify_eq. by apply insert_Permutation_head.
  - simplify_eq. by apply insert_Permutation_head.
  - constructor. by apply IH.
Qed.

Lemma shuffle_steps (src : source) (steps : list nat) (a : list Z) (n : nat) :
  let r := foldl (fun '(a, n) i =>
                    let j := Intn src n (Z.of_nat i + 1) in
                    (swap a (Z.to_nat j) i, S n))
                 (a, n) steps in
  r.1 ≡ₚ a ∧ r.2 = (n + length steps)%nat.
Proof.
  cbv zeta. revert a n. induction steps as [|i steps IH]; intros a n; cbn [foldl].
  { cbn. split; [done | lia]. }
  destruct (IH (swap a (Z.to_nat (Intn src n (Z.of_nat i + 1))) i) (S n)) as [Hp Hn].
  split.
  - rewrite Hp. apply swap_Permutation.
  - rewrite Hn. cbn [length]. lia.
Qed.

Lemma shuffle_perm (src : source) (n : nat) (a : list Z) :
  (shuffle src n a).1 ≡ₚ a
  ∧ (shuffle src n a).2 = (n + (length a - 1))%nat.
Proof.
  unfold shuffle.
  destruct (shuffle_steps src (reverse (seq 1 (length a - 1))) a n) as [Hp Hn].
  rewrite length_reverse, length_seq in Hn. split; [exact Hp | exact Hn].
Qed.

(** X23. [shuffle] only reorders: for every random source the result is a
    permutation of the slice, and a slice of [len] elements uses [len - 1]
    draws. *)
Theorem shuffle_Permutation (src : source) (n : nat) (a : list Z) :
  (shuffle src n a).1 ≡ₚ a
  ∧ (shuffle src n a).2 = (n + (length a - 1))%nat.
Proof. apply shuffle_perm. Qed.

(** X24. A shuffled deck deals no card that is already held: it holds
    each card from 1 to 52 that is not among the missing ones, once. *)
Theorem shuffled_deck_cards (src : source) (n : nat) (missing : list Z) :
  NoDup (shuffle src n (NewDeck missing)).1
  ∧ ∀ c, c ∈ (shuffle src n (NewDeck missing)).1 ↔ 1 ≤ c ≤ 52 ∧ c ∉ missing.
Proof.
  destruct (shuffle_perm src n (NewDeck missing)) as [Hp _].
  split.
  - rewrite Hp. apply NewDeck_NoDup.
  - intros c. rewrite Hp. apply NewDeck_elem_of.
Qed.

(** ** The share of trials, in general *)

(** X25. For a non-negative request and at least one worker, every worker
    gets the same share, and the total that is run is the multiple of
    [NCPU] nearest to the request: it differs from it by at most half of
    [NCPU], in either direction, and equals it when the request is a
    multiple of [NCPU]. *)
Theorem HandEquity2_trials_total (trials NCPU : Z) :
  0 ≤ trials → 0 < NCPU → trials + NCPU < 2 ^ 63 →
  ∃ share, HandEquity2_trials trials NCPU = Ok share
           ∧ 0 ≤ share
           ∧ - NCPU < 2 * (NCPU * share - trials) ≤ NCPU
           ∧ (trials `mod` NCPU = 0 → NCPU * share = trials).
Proof.
  intros Ht Hn Hbound. eexists. split; [by apply HandEquity2_trials_nearest|].
  pose proof (Z.div_mod trials NCPU) as Hdm.
  pose proof (Z.mod_pos_bound trials NCPU Hn) as Hr.
  pose proof (Z.div_pos trials NCPU Ht Hn) as Hq.
  case_decide; split_and!; try nia.
Qed.

Lemma HandEquity2_trials_total_witness :
  ∃ share, HandEquity2_trials 10 4 = Ok share
           ∧ 0 ≤ share
           ∧ - 4 < 2 * (4 * share - 10) ≤ 4
           ∧ (10 `mod` 4 = 0 → 4 * share = 10).
Proof. apply (HandEquity2_trials_total 10 4); lia. Defined.

(** ** Conversions of valid input *)

(** X26. Card names convert to cards of the deck, and distinct card names
    to distinct cards. *)
Theorem cardsToInts_card_names (cards : list string) :
  Forall (λ c, c ∈ card_names) cards →
  Forall (λ k, 1 ≤ k ≤ 52) (cardsToInts cards)
  ∧ (NoDup cards → NoDup (cardsToInts cards)).
Proof.
  intros Hcards. unfold cardsToInts.
  change (map CTOI_at cards) with (CTOI_at <$> cards). split.
  - apply Forall_fmap. eapply Forall_impl; [exact Hcards|].
    intros c Hc. cbn. destruct (CTOI_card_names c Hc) as [k Hk].
    unfold CTOI_at. rewrite Hk. cbn. by apply CTOI_Some in Hk as [_ ?].
  - intros Hnd. induction Hcards as [|c cards Hc _ IH]; [constructor|].
    apply NoDup_cons in Hnd as [Hnotin Hnd].
    rewrite fmap_cons. apply NoDup_cons. split; [|by apply IH].
    intros Hin. apply list_elem_of_fmap in Hin as (c' & Heq & Hin).
    apply (CTOI_at_inj c c' Hc) in Heq. by subst c'.
Qed.

Lemma cardsToInts_card_names_witness :
  Forall (λ k, 1 ≤ k ≤ 52) (cardsToInts ["Ah"; "Ad"])
  ∧ (NoDup ["Ah"; "Ad"] → NoDup (cardsToInts ["Ah"; "Ad"])).
Proof. apply (cardsToInts_card_names ["Ah"; "Ad"]). compute_done. Defined.

(** X27. [Strs] reads three bytes of a token and no more: what follows
    the suffix, such as the ['+'] of ["AJs+"], changes nothing. *)
Theorem Strs_ignores_tail (a b c : ascii) (more : string) :
  Strs {| Dist := String a (String b (String c more)) |}
  = Strs {| Dist := str3 a b c |}.
Proof.
  unfold str3. destruct (decide (c = "o"%char)) as [->|Hc].
  - by rewrite !Strs_offsuit.
  - by rewrite !Strs_suited.
Qed.
